(** * Time-series extraction script: a shallow embedding

    The repository holds one Earth Engine script in two variants:
    [time_series_extract.js] ([exportTimeSeries], [formatTable]) and a
    second file that repeats both functions and adds the chunking helper
    ([getSubset], [divideAndExportTimeSeries]).

    The script only assembles calls into the hosted platform.  The
    primitives it calls ([toList], [distinct], [Join.saveAll], [multiply],
    [reduceRegions], ...) are embedded in [Module ee] after the platform's
    documented behaviour; the four functions of the repository are then
    translated statement by statement on top of them. *)

From Stdlib Require Import QArith Qcanon Ascii.
From stdpp Require Import gmap strings list fin_maps pretty numbers.

Local Open Scope Z_scope.

(** ** Data model *)

(** Property values of features and images: numbers and strings.  A
    number is the rational a finite floating-point value stands for;
    signed zeros, infinities and NaN are outside the model, and the
    model does no arithmetic of its own on numbers (see [ee.multiply]).
    A property that is absent reads as [None], the script's [null]. *)
Inductive Value :=
  | VNum (q : Qc)
  | VStr (s : string).

Global Instance Value_eq_dec : EqDecision Value.
Proof. solve_decision. Defined.

(** A point location. *)
Definition Loc : Type := Z * Z.

(** A feature: a geometry and a dictionary of properties. *)
Record Feature := mkFeature {
  geometry : Loc;
  properties : gmap string Value
}.

Global Instance Feature_eq_dec : EqDecision Feature.
Proof. solve_decision. Defined.

(** One band of an image: for a sampling scale and a location, the pixel
    value, or [None] where the pixel is masked. *)
Definition Raster : Type := Qc → Loc → option Qc.

(** An image: its id ([system:index]), its metadata and its bands in
    order. *)
Record Image := mkImage {
  image_id : string;
  image_properties : gmap string Value;
  image_bands : list (string * Raster)
}.

(** The table handed to [Export.table.toDrive]; [None] stands for a
    request the platform rejects when it evaluates the query. *)
Record ExportTask := mkExportTask {
  task_collection : option (list Feature);
  task_description : string;
  task_folder : string;
  task_fileNamePrefix : string;
  task_fileFormat : string
}.

(** ** Platform primitives *)

Module ee.

(** [element.get(name)] *)
Definition get (f : Feature) (name : string) : option Value :=
  properties f !! name.

(** [feature.set(name, value)] *)
Definition set (f : Feature) (name : string) (v : Value) : Feature :=
  mkFeature (geometry f) (<[name := v]> (properties f)).

(** [feature.set(dictionary)]: the dictionary's entries override. *)
Definition set_all (f : Feature) (d : gmap string Value) : Feature :=
  mkFeature (geometry f) (d ∪ properties f).

(** [feature.select(names)]: keeps the listed properties (and the
    geometry). *)
Definition select (f : Feature) (names : list string) : Feature :=
  mkFeature (geometry f)
    (filter (λ kv, kv.1 ∈ names) (properties f)).

(** [collection.toList(count, offset)]: at most [count] elements, after
    discarding the first [offset]. *)
Definition toList {A} (c : list A) (count offset : nat) : list A :=
  take count (drop offset c).

(** [collection.distinct(name)]: one feature, the first met, for every
    value of the property. *)
Fixpoint distinct (name : string) (c : list Feature) : list Feature :=
  match c with
  | [] => []
  | f :: c' =>
      f :: filter (λ g, get g name ≠ get f name) (distinct name c')
  end.

(** [ee.Filter.equals({leftField, rightField})]: a missing field equals
    nothing. *)
Definition Filter_equals (leftField rightField : string)
    (l r : Feature) : bool :=
  match get l leftField, get r rightField with
  | Some a, Some b => bool_decide (a = b)
  | _, _ => false
  end.

(** [ee.Join.saveAll('matches').apply(primary, secondary, condition)]:
    every primary element that has a match, with the list of its
    matches.  The list is the row's ['matches'] property; it is carried
    beside the row here. *)
Definition Join_saveAll (primary secondary : list Feature)
    (condition : Feature → Feature → bool)
    : list (Feature * list Feature) :=
  omap (λ p,
          match filter (λ s, condition p s = true) secondary with
          | [] => None
          | ms => Some (p, ms)
          end) primary.

(** [ee.List(l).reduce(ee.Reducer.firstNonNull())] *)
Fixpoint firstNonNull (l : list (option Value)) : option Value :=
  match l with
  | [] => None
  | Some v :: _ => Some v
  | None :: l' => firstNonNull l'
  end.

(** ['%.2f']: sign, integer part, a point and two decimals, rounded
    half up on the magnitude. *)
Definition format_2f (q : Qc) : string :=
  let n := Qnum q in
  let d := Z.pos (Qden q) in
  let h := (200 * Z.abs n + d) `div` (2 * d) in
  (if bool_decide (n < 0) then "-" else "")
    +:+ pretty (h `div` 100)
    +:+ "."
    +:+ String (pretty_N_char (Z.to_N ((h `mod` 100) `div` 10)))
          (String (pretty_N_char (Z.to_N (h `mod` 10))) "").

(** [ee.Number(value).format('%.2f')]: fails on what is not a number. *)
Definition Number_format (v : option Value) : option string :=
  match v with
  | Some (VNum q) => Some (format_2f q)
  | _ => None
  end.

(** [ee.Dictionary(list)] from a flattened list of key/value pairs:
    keys are strings, a later pair overrides an earlier one. *)
Definition Dictionary (kvs : list (string * Value)) : gmap string Value :=
  foldl (λ m kv, <[kv.1 := kv.2]> m) ∅ kvs.

(** [ee.Number(a).divide(b).ceil()] on counts; the platform's division
    by zero gives zero. *)
Definition divide_ceil (a b : nat) : nat := ((a + (b - 1)) `div` b)%nat.

(** [collection.filterDate(start, end)]: the images whose
    [system:time_start] is in [start, end).  Dates are given as the
    timestamps they parse to. *)
Definition in_range (start end_ : Qc) (img : Image) : bool :=
  match image_properties img !! "system:time_start" with
  | Some (VNum t) => bool_decide (start ≤ t)%Qc && bool_decide (t < end_)%Qc
  | _ => false
  end.

Definition filterDate (start end_ : Qc) (c : list Image) : list Image :=
  filter (λ img, in_range start end_ img = true) c.

(** [image.select(band)]: the named band alone, metadata kept; fails
    when the image has no such band. *)
Definition Image_select (band : string) (img : Image) : option Image :=
  match filter (λ b, b.1 = band) (image_bands img) with
  | [] => None
  | bs => Some (mkImage (image_id img) (image_properties img) bs)
  end.

(** [image.multiply(number)]: every pixel of every band times the
    number; masked pixels stay masked.  The platform multiplies
    floating-point values and rounds the result: [product] is that
    multiplication, and nothing is assumed of it.  Which metadata an
    arithmetic result keeps is left open: [retained] picks the names that
    survive. *)
Definition multiply (retained : string → bool) (product : Qc → Qc → Qc)
    (img : Image) (m : Qc) : Image :=
  mkImage (image_id img)
    (filter (λ kv, retained kv.1 = true) (image_properties img))
    (map (λ b : string * Raster,
            (b.1, λ scale loc, (λ v, product v m) <$> b.2 scale loc))
         (image_bands img)).

(** [destination.copyProperties(source, names)] *)
Definition copyProperties (destination source : Image)
    (names : list string) : Image :=
  mkImage (image_id destination)
    (foldr (λ name props,
              match image_properties source !! name with
              | Some v => <[name := v]> props
              | None => props
              end) (image_properties destination) names)
    (image_bands destination).

(** [image.reduceRegions({collection, reducer, scale})] with
    [ee.Reducer.mean().setOutputs([output])] on point features: the
    mean over a point is the pixel under it; a masked pixel leaves the
    output [null].  The reducer has one input, so the image must have
    one band. *)
Definition reduceRegions (img : Image) (collection : list Feature)
    (output : string) (scale : Qc) : option (list Feature) :=
  match image_bands img with
  | [(_, r)] =>
      Some (map (λ f,
                   match r scale (geometry f) with
                   | Some v => set f output (VNum v)
                   | None =>
                       mkFeature (geometry f) (delete output (properties f))
                   end) collection)
  | _ => None
  end.

End ee.

(** ** [formatTable] *)

(** The value the pivot writes when the sample is [null]. *)
Definition sentinel : Qc := Qc_of_Z (-9999).

(** The inner [map] of [formatTable]: the pair
    [[feature.get(colId), ee.Number(value).format('%.2f')]]. *)
Definition formatCell (colId bandAlias : string) (feature : Feature)
    : option (string * Value) :=
  let value := ee.firstNonNull [ee.get feature bandAlias; Some (VNum sentinel)] in
  match ee.get feature colId, ee.Number_format value with
  | Some (VStr c), Some s => Some (c, VStr s)
  | _, _ => None
  end.

(** The outer [map] of [formatTable], on one joined row. *)
Definition formatRow (rowId colId bandAlias : string)
    (joined_row : Feature * list Feature) : option Feature :=
  let '(row, matches) := joined_row in
  values ← mapM (formatCell colId bandAlias) matches;
  Some (ee.set_all (ee.select row [rowId]) (ee.Dictionary values)).

(** The [joined] collection of [formatTable]. *)
Definition joinedRows (table : list Feature) (rowId : string)
    : list (Feature * list Feature) :=
  let rows := ee.distinct rowId table in
  ee.Join_saveAll rows table (ee.Filter_equals rowId rowId).

Definition formatTable (table : list Feature) (rowId colId bandAlias : string)
    : option (list Feature) :=
  mapM (formatRow rowId colId bandAlias) (joinedRows table rowId).

(** ** [exportTimeSeries] *)

(** What the script does to the outside: a line on the console, an export
    task. *)
Inductive Event :=
  | PrintFirst (first : option (option Feature))
  | ExportTable (task : ExportTask).

Section Pipeline.

Variable retained : string → bool.
Variable product : Qc → Qc → Qc.

(** [imageCollection.filterDate(startDate, endDate).select(band)] *)
Definition filtered (imageCollection : list Image) (startDate endDate : Qc)
    (band : string) : option (list Image) :=
  mapM (ee.Image_select band) (ee.filterDate startDate endDate imageCollection).

(** The function mapped to build [scaledBand]. *)
Definition scaleImage (multiplier : Qc) (image : Image) : Image :=
  ee.copyProperties (ee.multiply retained product image multiplier) image
    ["system:time_start"; "system:time_end"].

Definition scaledBand (multiplier : Qc) (filtered : list Image) : list Image :=
  map (scaleImage multiplier) filtered.

(** The function mapped to build [triplets]. *)
Definition sampleImage (featureCollection : list Feature)
    (bandAlias : string) (scale : Qc) (image : Image)
    : option (list Feature) :=
  sampled ← ee.reduceRegions image featureCollection bandAlias scale;
  Some (map (λ feature, ee.set feature "imageId" (VStr (image_id image)))
            sampled).

(** [scaledBand.map(...).flatten()] *)
Definition triplets (featureCollection : list Feature) (bandAlias : string)
    (scale : Qc) (scaledBand : list Image) : option (list Feature) :=
  mjoin <$> mapM (sampleImage featureCollection bandAlias scale) scaledBand.

(** The long-format table of a whole request. *)
Definition tripletTable (imageCollection : list Image)
    (featureCollection : list Feature) (startDate endDate : Qc)
    (band bandAlias : string) (scale multiplier : Qc)
    : option (list Feature) :=
  fl ← filtered imageCollection startDate endDate band;
  triplets featureCollection bandAlias scale (scaledBand multiplier fl).

(** The function itself.  The two collections are passed in place of the
    ids that [ee.ImageCollection] and [ee.FeatureCollection] resolve, and
    the dates in place of the strings they are written as.  The query is
    only evaluated by the platform, so the console line and the export
    task exist even when the table cannot be computed. *)
Definition exportTimeSeries (imageCollection : list Image)
    (featureCollection : list Feature) (startDate endDate : Qc)
    (band bandAlias : string) (scale multiplier : Qc)
    (outputFolder fileNamePrefix : string) : list Event :=
  let timeSeriesResults :=
    t ← tripletTable imageCollection featureCollection startDate endDate
           band bandAlias scale multiplier;
    formatTable t "id" "imageId" bandAlias in
  [ PrintFirst (head <$> timeSeriesResults);
    ExportTable (mkExportTask timeSeriesResults fileNamePrefix outputFolder
                   fileNamePrefix "CSV") ].

(** ** The chunking helper *)

Definition getSubset (collection : list Feature) (startIndex endIndex : nat)
    : list Feature :=
  ee.toList collection endIndex startIndex.

(** The arguments of one call of [exportTimeSeries]. *)
Record ExportCall := mkExportCall {
  call_imageCollection : list Image;
  call_featureCollection : list Feature;
  call_startDate : Qc;
  call_endDate : Qc;
  call_band : string;
  call_bandAlias : string;
  call_scale : Qc;
  call_multiplier : Qc;
  call_outputFolder : string;
  call_fileNamePrefix : string
}.

Definition runCall (c : ExportCall) : list Event :=
  exportTimeSeries (call_imageCollection c) (call_featureCollection c)
    (call_startDate c) (call_endDate c) (call_band c) (call_bandAlias c)
    (call_scale c) (call_multiplier c) (call_outputFolder c)
    (call_fileNamePrefix c).

(** The body of the loop, for one value of [i]. *)
Definition chunkCall (collection : list Feature) (chunkSize : nat)
    (imageCollection : list Image) (startDate endDate : Qc)
    (band bandAlias : string) (scale multiplier : Qc)
    (outputFolder : string) (i : nat) : ExportCall :=
  let startIndex := (i * chunkSize)%nat in
  let endIndex := (startIndex + chunkSize)%nat in
  let subset := getSubset collection startIndex endIndex in
  let fileNamePrefix := "chunk" +:+ pretty (i + 1)%nat +:+ "_" +:+ bandAlias in
  mkExportCall imageCollection subset startDate endDate band bandAlias
    scale multiplier outputFolder fileNamePrefix.

(** The calls of [exportTimeSeries] the loop makes, in order. *)
Definition divideAndExportTimeSeries_calls (collection : list Feature)
    (numChunks : nat) (imageCollection : list Image) (startDate endDate : Qc)
    (band bandAlias : string) (scale multiplier : Qc)
    (outputFolder : string) : list ExportCall :=
  let totalFeatures := length collection in
  let chunkSize := ee.divide_ceil totalFeatures numChunks in
  map (chunkCall collection chunkSize imageCollection startDate endDate
         band bandAlias scale multiplier outputFolder)
      (seq 0 numChunks).

Definition divideAndExportTimeSeries (collection : list Feature)
    (numChunks : nat) (imageCollection : list Image) (startDate endDate : Qc)
    (band bandAlias : string) (scale multiplier : Qc)
    (outputFolder : string) : list Event :=
  flat_map runCall
    (divideAndExportTimeSeries_calls collection numChunks imageCollection
       startDate endDate band bandAlias scale multiplier outputFolder).

(** The chunks handed to the sub-requests. *)
Definition chunks (collection : list Feature) (numChunks : nat)
    : list (list Feature) :=
  let chunkSize := ee.divide_ceil (length collection) numChunks in
  map (λ i, getSubset collection (i * chunkSize) (i * chunkSize + chunkSize))%nat
      (seq 0 numChunks).

End Pipeline.

(** ** Vocabulary of the properties *)

(** A long-format triplet: a point id, an image id (a string) and a band
    value that is a number or [null]. *)
Definition is_triplet (rowId colId bandAlias : string) (t : Feature) : bool :=
  match ee.get t rowId, ee.get t colId, ee.get t bandAlias with
  | Some _, Some (VStr _), None => true
  | Some _, Some (VStr _), Some (VNum _) => true
  | _, _, _ => false
  end.

Definition triplet_table (rowId colId bandAlias : string)
    (table : list Feature) : bool :=
  forallb (is_triplet rowId colId bandAlias) table.

(** The point ids of a table, with repetitions. *)
Definition point_ids (rowId : string) (table : list Feature) : list Value :=
  omap (λ t, ee.get t rowId) table.

Definition image_id_of (colId : string) (t : Feature) : option string :=
  match ee.get t colId with
  | Some (VStr c) => Some c
  | _ => None
  end.

(** The distinct image ids of a table. *)
Definition image_ids (colId : string) (table : list Feature) : gset string :=
  list_to_set (omap (image_id_of colId) table).

(** The property names that occur in a table: its columns. *)
Definition columns (table : list Feature) : gset string :=
  ⋃ ((λ row, dom (properties row)) <$> table).

(** The number a triplet stands for: its sample, or the sentinel. *)
Definition sampled_value (bandAlias : string) (t : Feature) : Qc :=
  match ee.get t bandAlias with
  | Some (VNum q) => q
  | _ => sentinel
  end.

(** The table has a triplet of point [p] and image [c]. *)
Definition has_pair (rowId colId : string) (table : list Feature)
    (p : Value) (c : string) : Prop :=
  ∃ t, t ∈ table ∧ ee.get t rowId = Some p ∧ ee.get t colId = Some (VStr c).

(** No triplet of point [p] and image [c] has a value. *)
Definition unmeasured (rowId colId bandAlias : string) (table : list Feature)
    (p : Value) (c : string) : Prop :=
  ∀ t, t ∈ table → ee.get t rowId = Some p → ee.get t colId = Some (VStr c) →
       ee.get t bandAlias = None.

(** The triplets of a table for point [p] and image [c]. *)
Definition pair_triplets (table : list Feature) (p : Value) (c : string)
    : list Feature :=
  filter (λ t, ee.get t "id" = Some p ∧ ee.get t "imageId" = Some (VStr c)) table.

Definition is_digit (a : ascii) : bool :=
  bool_decide (a ∈ ["0"; "1"; "2"; "3"; "4"; "5"; "6"; "7"; "8"; "9"]%char).

(** A decimal string with exactly two digits after its point. *)
Definition two_decimals (s : string) : Prop :=
  ∃ pre d1 d2, s = pre +:+ "." +:+ String d1 (String d2 "")
               ∧ is_digit d1 = true ∧ is_digit d2 = true.

(** *** Reading a decimal string back *)

Definition digit_value (c : ascii) : option N :=
  let code := N_of_ascii c in
  if bool_decide (48 ≤ code)%N && bool_decide (code ≤ 57)%N
  then Some (code - 48)%N
  else None.

(** The number a string of digits denotes, with ten to the power of its
    length; [None] when a character is not a digit. *)
Fixpoint digits_value (s : string) : option (N * N) :=
  match s with
  | "" => Some (0, 1)%N
  | String c s' =>
      d ← digit_value c;
      vw ← digits_value s';
      Some (d * vw.2 + vw.1, 10 * vw.2)%N
  end.

(** The parts of a string before and after its first point. *)
Fixpoint split_point (s : string) : option (string * string) :=
  match s with
  | "" => None
  | String c s' =>
      if decide (c = "."%char) then Some ("", s')
      else (λ p, (String c p.1, p.2)) <$> split_point s'
  end.

(** The number an unsigned decimal string denotes: digits, a point,
    digits. *)
Definition unsigned_value (s : string) : option Qc :=
  parts ← split_point s;
  i ← digits_value parts.1;
  f ← digits_value parts.2;
  Some (Q2Qc (Z.of_N (i.1 * f.2 + f.1) # Z.to_pos (Z.of_N f.2))).

(** The number a decimal string denotes; a minus sign may come first. *)
Definition decimal_value (s : string) : option Qc :=
  match s with
  | String c s' =>
      if decide (c = "-"%char) then Qcopp <$> unsigned_value s'
      else unsigned_value s
  | "" => None
  end.

(** Half a hundredth, the largest error of a rounding to two decimals. *)
Definition half_hundredth : Qc := Q2Qc (1 # 200).

(** The string denotes the number [q] rounded to two decimals. *)
Definition renders_2f (q : Qc) (s : string) : Prop :=
  two_decimals s
  ∧ ∃ x, decimal_value s = Some x
         ∧ (q - half_hundredth ≤ x)%Qc ∧ (x ≤ q + half_hundredth)%Qc.

(** The hundredths that ['%.2f'] prints: the magnitude times a hundred,
    rounded half up. *)
Definition hundredths (q : Qc) : Z :=
  (200 * Z.abs (Qnum q) + Z.pos (Qden q)) `div` (2 * Z.pos (Qden q)).

(** ** Sample inputs *)

(** A sampled feature as [exportTimeSeries] builds it: the point's own
    attributes ([id], [class]), the image id and, when the pixel is not
    masked, the sample under the alias [ndvi]. *)
Definition sample_triplet (x : Z) (p c : string) (v : option Qc) : Feature :=
  mkFeature (x, 0)
    (from_option (λ q, <["ndvi" := VNum q]>) id v
       (<["id" := VStr p]> (<["imageId" := VStr c]> {["class" := VStr "forest"]}))).

(** Two points in two images; point [a] is masked in image [c2]. *)
Definition sample_table : list Feature :=
  [ sample_triplet 1 "a" "c1" (Some (Q2Qc (1 # 2)));
    sample_triplet 2 "b" "c1" (Some (Q2Qc (5 # 4)));
    sample_triplet 1 "a" "c2" None;
    sample_triplet 2 "b" "c2" (Some (Qc_of_Z 3)) ].

(** A table in which each point was sampled in one image only. *)
Definition sparse_table : list Feature :=
  [ sample_triplet 1 "a" "c1" (Some (Qc_of_Z 1));
    sample_triplet 2 "b" "c2" (Some (Qc_of_Z 2)) ].

(** The columns of the wide table read as all its property names. *)
Definition columns_are_image_ids : Prop :=
  ∀ table rowId colId bandAlias wide,
    triplet_table rowId colId bandAlias table = true →
    formatTable table rowId colId bandAlias = Some wide →
    columns wide = image_ids colId table.

(** The reading of the sentinel rule that fills every row and column:
    whenever no triplet of point [p] and image [c] has a value, the row of
    [p] holds the sentinel in column [c]. *)
Definition sentinel_fills_every_cell : Prop :=
  ∀ table rowId colId bandAlias wide,
    triplet_table rowId colId bandAlias table = true →
    formatTable table rowId colId bandAlias = Some wide →
    Forall2 (λ '(r, _) row,
               ∀ p c, ee.get r rowId = Some p →
                      c ∈ image_ids colId table →
                      unmeasured rowId colId bandAlias table p c →
                      ee.get row c = Some (VStr (ee.format_2f sentinel)))
            (joinedRows table rowId) wide.

(** The file name prefix of an export event. *)
Definition export_prefix (e : Event) : option string :=
  match e with
  | ExportTable task => Some (task_fileNamePrefix task)
  | PrintFirst _ => None
  end.

(** A point feature with a numeric [id]. *)
Definition sample_point (x : Z) (id : Z) : Feature :=
  mkFeature (x, 0) {["id" := VNum (Qc_of_Z id)]}.

Definition sample_points : list Feature :=
  [sample_point 1 7; sample_point 2 8; sample_point 3 9].

(** The multiplication used on the sample inputs: their values are small
    dyadic numbers, whose exact product is a floating-point value, so
    that the rounded product is the exact one. *)
Definition exact_product : Qc → Qc → Qc := Qcmult.

(** An image taken at time [t] whose band [NDVI] has the value [v]
    everywhere. *)
Definition flat_image (id : string) (t v : Z) : Image :=
  mkImage id
    (<["system:time_start" := VNum (Qc_of_Z t)]> {["sensor" := VStr "MODIS"]})
    [("NDVI", λ _ _, Some (Qc_of_Z v)); ("EVI", λ _ _, None)].

Definition sample_images : list Image :=
  [flat_image "i1" 5 7; flat_image "i2" 6 4; flat_image "i3" 50 1].

(** Uniqueness of the triplets with nothing asked of the band alias. *)
Definition triplets_unique_per_pair : Prop :=
  ∀ retained product imageCollection featureCollection startDate endDate
    band bandAlias scale multiplier table,
    NoDup (point_ids "id" featureCollection) →
    NoDup (image_id <$> imageCollection) →
    tripletTable retained product imageCollection featureCollection startDate endDate
      band bandAlias scale multiplier = Some table →
    ∀ p c, (length (pair_triplets table p c) ≤ 1)%nat.
(** ** Vocabulary of the pipeline properties *)

(** What [sampleImage] makes of one point under the raster of an image:
    the point with the sample under [bandAlias] (nothing there when the
    pixel is masked) and the id of the image under [imageId]. *)
Definition sampleFeature (bandAlias : string) (scale : Qc) (imageId : string)
    (r : Raster) (f : Feature) : Feature :=
  ee.set
    (match r scale (geometry f) with
     | Some v => ee.set f bandAlias (VNum v)
     | None => mkFeature (geometry f) (delete bandAlias (properties f))
     end)
    "imageId" (VStr imageId).

(** The raster of a band after [image.multiply(multiplier)]. *)
Definition scaledRaster (product : Qc → Qc → Qc) (multiplier : Qc)
    (r : Raster) : Raster :=
  λ scale loc, (λ v, product v multiplier) <$> r scale loc.

(** The image has one band of the given name. *)
Definition has_band (band : string) (image : Image) : Prop :=
  length (filter (λ b, b.1 = band) (image_bands image)) = 1%nat.

(** The table of the export task among the events of a request. *)
Definition exported_tables (events : list Event)
    : list (option (list Feature)) :=
  omap (λ e, match e with
             | ExportTable task => Some (task_collection task)
             | PrintFirst _ => None
             end) events.

(** ** The chunked script *)

(** The call that ends the chunked script: five chunks of the points
    asset over the ERA5 daily collection, from ['1950-01-01'] to
    ['2015-12-31']. *)
Definition script_chunked_calls (era5 : list Image) (points : list Feature)
    : list ExportCall :=
  let startDate := Qc_of_Z (-631152000000) in
  let endDate := Qc_of_Z 1451520000000 in
  let band := "surface_pressure" in
  let bandAlias := band in
  let scale := Qc_of_Z 27830 in
  let multiplier := Qc_of_Z 1 in
  let outputFolder := "eeT" in
  divideAndExportTimeSeries_calls points 5 era5 startDate endDate band bandAlias
    scale multiplier outputFolder.

Definition script_chunked (retained : string → bool)
    (product : Qc → Qc → Qc)
    (era5 : list Image) (points : list Feature) : list Event :=
  let startDate := Qc_of_Z (-631152000000) in
  let endDate := Qc_of_Z 1451520000000 in
  let band := "surface_pressure" in
  let bandAlias := band in
  let scale := Qc_of_Z 27830 in
  let multiplier := Qc_of_Z 1 in
  let outputFolder := "eeT" in
  divideAndExportTimeSeries retained product points 5 era5 startDate endDate band
    bandAlias scale multiplier outputFolder.

(** ** Facts about the platform primitives *)

Section primitives.

Implicit Types (f g r t : Feature) (c table : list Feature).
Implicit Types (kvs : list (string * Value)) (k name : string).

Lemma Dictionary_snoc kvs k v :
  ee.Dictionary (kvs ++ [(k, v)]) = <[k := v]> (ee.Dictionary kvs).
Proof. unfold ee.Dictionary. by rewrite foldl_snoc. Qed.

Lemma Dictionary_lookup_Some kvs k v :
  ee.Dictionary kvs !! k = Some v → (k, v) ∈ kvs.
Proof.
  induction kvs as [|[k' v'] kvs IH] using rev_ind.
  - unfold ee.Dictionary. simpl. by rewrite lookup_empty.
  - rewrite Dictionary_snoc, lookup_insert. case_decide as Hk.
    + intros [= <-]. subst k'. apply elem_of_app. right. left.
    + intros Hl. apply elem_of_app. left. by apply IH.
Qed.

Lemma Dictionary_lookup_is_Some kvs k :
  is_Some (ee.Dictionary kvs !! k) ↔ k ∈ kvs.*1.
Proof.
  induction kvs as [|[k' v'] kvs IH] using rev_ind.
  - unfold ee.Dictionary. simpl. rewrite lookup_empty.
    split; [by intros [? ?] | by intros ?%elem_of_nil].
  - rewrite Dictionary_snoc, fmap_app, elem_of_app, lookup_insert.
    simpl. rewrite list_elem_of_singleton. case_decide as Hk.
    + subst k'. split; [by right | by eauto].
    + rewrite IH. split; [by left | intros [?|?]; [done | congruence]].
Qed.

Lemma distinct_subset name c f : f ∈ ee.distinct name c → f ∈ c.
Proof.
  revert f. induction c as [|g c IH]; intros f; simpl; [done |].
  rewrite elem_of_cons, list_elem_of_filter.
  intros [-> | [_ Hf]]; [left | right; by apply IH].
Qed.

Lemma distinct_covers name c t :
  t ∈ c → ∃ f, f ∈ ee.distinct name c ∧ ee.get f name = ee.get t name.
Proof.
  induction c as [|g c IH]; simpl; [by intros ?%elem_of_nil |].
  rewrite elem_of_cons. intros [-> | Ht].
  - exists g. split; [left | done].
  - destruct (IH Ht) as (f & Hf & Heq).
    destruct (decide (ee.get f name = ee.get g name)) as [Hfg | Hfg].
    + exists g. split; [left | congruence].
    + exists f. split; [| done]. right. by apply list_elem_of_filter.
Qed.

Lemma distinct_NoDup name c :
  NoDup ((λ f, ee.get f name) <$> ee.distinct name c).
Proof.
  induction c as [|g c IH]; simpl; [constructor |].
  constructor.
  - rewrite list_elem_of_fmap. intros (f & Heq & Hf).
    apply list_elem_of_filter in Hf as [Hne _]. congruence.
  - eapply sublist_NoDup; [exact IH |].
    apply fmap_sublist, sublist_filter.
Qed.

Lemma Filter_equals_true name r t :
  ee.Filter_equals name name r t = true ↔
  is_Some (ee.get r name) ∧ ee.get t name = ee.get r name.
Proof.
  unfold ee.Filter_equals.
  destruct (ee.get r name) as [a|], (ee.get t name) as [b|];
    rewrite ?bool_decide_eq_true; split;
    try (by intros [[? ?] ?]); try done.
  - intros ->. eauto.
  - by intros [_ [= ->]].
Qed.

Lemma Join_saveAll_elem (primary secondary : list Feature) cond r ms :
  (r, ms) ∈ ee.Join_saveAll primary secondary cond ↔
  r ∈ primary ∧ ms = filter (λ s, cond r s = true) secondary ∧ ms ≠ [].
Proof.
  unfold ee.Join_saveAll. rewrite list_elem_of_omap. split.
  - intros (p & Hp & Heq).
    destruct (filter _ secondary) as [|m ms'] eqn:Hms; [done |].
    injection Heq as <- <-. by rewrite Hms.
  - intros (Hr & -> & Hne). exists r. split; [done |].
    by destruct (filter _ secondary).
Qed.

End primitives.

(** ** Facts about [formatTable] *)

Section mapM_elements.

Context {A B : Type} (f : A → option B).

Lemma mapM_elem_r (l : list A) (k : list B) y :
  mapM f l = Some k → y ∈ k → ∃ x, x ∈ l ∧ f x = Some y.
Proof.
  intros Hm%mapM_Some_1 Hy. induction Hm as [|x y' l k Hxy _ IH].
  - by apply elem_of_nil in Hy.
  - apply elem_of_cons in Hy as [-> | Hy].
    + exists x. split; [left | done].
    + destruct (IH Hy) as (x' & ? & ?). exists x'. split; [by right | done].
Qed.

Lemma mapM_elem_l (l : list A) (k : list B) x :
  mapM f l = Some k → x ∈ l → ∃ y, y ∈ k ∧ f x = Some y.
Proof.
  intros Hm%mapM_Some_1 Hx. induction Hm as [|x' y l k Hxy _ IH].
  - by apply elem_of_nil in Hx.
  - apply elem_of_cons in Hx as [-> | Hx].
    + exists y. split; [left | done].
    + destruct (IH Hx) as (y' & ? & ?). exists y'. split; [by right | done].
Qed.

End mapM_elements.

Section formatTable_facts.

Variables rowId colId bandAlias : string.
Implicit Types (r t row : Feature) (ms table wide : list Feature).

Lemma formatCell_Some t c v :
  formatCell colId bandAlias t = Some (c, v) →
  ee.get t colId = Some (VStr c)
  ∧ v = VStr (ee.format_2f (sampled_value bandAlias t)).
Proof.
  unfold formatCell, sampled_value. simpl.
  destruct (ee.get t colId) as [[q|s]|]; try done.
  destruct (ee.get t bandAlias) as [[q|s']|]; simpl; try done;
    by intros [= <- <-].
Qed.

Lemma formatCell_triplet t :
  is_triplet rowId colId bandAlias t = true →
  is_Some (formatCell colId bandAlias t).
Proof.
  unfold is_triplet, formatCell. simpl.
  destruct (ee.get t rowId); [| done].
  destruct (ee.get t colId) as [[q|s]|]; try done.
  destruct (ee.get t bandAlias) as [[q|s']|]; simpl; try done; eauto.
Qed.

Lemma joinedRows_inv table r ms :
  (r, ms) ∈ joinedRows table rowId →
  r ∈ table ∧ ms ≠ [] ∧
  ∃ p, ee.get r rowId = Some p
       ∧ ∀ t, t ∈ ms ↔ t ∈ table ∧ ee.get t rowId = Some p.
Proof.
  unfold joinedRows. rewrite Join_saveAll_elem.
  intros (Hr%distinct_subset & -> & Hne). split; [done |]. split; [done |].
  destruct (filter _ table) as [|m ms] eqn:Hms; [done |].
  assert (Hm : m ∈ filter (λ s, ee.Filter_equals rowId rowId r s = true) table)
    by (rewrite Hms; left).
  apply list_elem_of_filter in Hm as [[[p Hp] _]%Filter_equals_true _].
  exists p. split; [done |]. intros t. rewrite <- Hms.
  rewrite list_elem_of_filter, Filter_equals_true, Hp.
  split; [by intros [[_ ?] ?] | intros [? ?]; eauto].
Qed.

Lemma joinedRows_point table t p :
  t ∈ table → ee.get t rowId = Some p →
  ∃ r ms, (r, ms) ∈ joinedRows table rowId ∧ ee.get r rowId = Some p ∧ t ∈ ms.
Proof.
  intros Ht Hp. destruct (distinct_covers rowId table t Ht) as (r & Hr & Heq).
  rewrite Hp in Heq.
  assert (Hin : t ∈ filter (λ s, ee.Filter_equals rowId rowId r s = true) table).
  { apply list_elem_of_filter. split; [| done].
    apply Filter_equals_true. rewrite Heq, Hp. eauto. }
  exists r, (filter (λ s, ee.Filter_equals rowId rowId r s = true) table).
  split; [| done]. unfold joinedRows. apply Join_saveAll_elem.
  split; [done |]. split; [done |]. intros Hnil. rewrite Hnil in Hin.
  by apply elem_of_nil in Hin.
Qed.

Lemma joinedRows_NoDup table :
  NoDup ((λ jr, ee.get jr.1 rowId) <$> joinedRows table rowId).
Proof.
  unfold joinedRows, ee.Join_saveAll.
  pose proof (distinct_NoDup rowId table) as Hnd. revert Hnd.
  generalize (ee.distinct rowId table). intros l.
  induction l as [|r l IH]; [constructor |].
  rewrite fmap_cons, list.NoDup_cons. intros [Hr Hl]. simpl.
  destruct (filter _ table) as [|m ms]; simpl; [by apply IH |].
  constructor; [| by apply IH].
  rewrite list_elem_of_fmap. intros ([r' ms'] & Heq & Hin). simpl in Heq.
  apply list_elem_of_omap in Hin as (r'' & Hr'' & Hsome).
  destruct (filter _ table); [done |]. injection Hsome as -> _.
  apply Hr. rewrite list_elem_of_fmap. eauto.
Qed.

Lemma formatRow_properties r ms row :
  formatRow rowId colId bandAlias (r, ms) = Some row →
  ∃ values, mapM (formatCell colId bandAlias) ms = Some values
    ∧ ∀ k, ee.get row k =
           match ee.Dictionary values !! k with
           | Some v => Some v
           | None => if decide (k = rowId) then ee.get r rowId else None
           end.
Proof.
  unfold formatRow. destruct (mapM _ ms) as [values|]; simpl; [| done].
  intros [= <-]. exists values. split; [done |]. intros k.
  unfold ee.get, ee.set_all, ee.select. simpl. rewrite lookup_union.
  destruct (ee.Dictionary values !! k) as [v|] eqn:Hd.
  - by destruct (filter _ (properties r) !! k).
  - rewrite (left_id_L None _). rewrite map_lookup_filter.
    case_decide as Hk.
    + subst k. destruct (properties r !! rowId); simpl; [| done].
      rewrite option_guard_True; [done |]. simpl. left.
    + destruct (properties r !! k); simpl; [| done].
      rewrite option_guard_False; [done |]. simpl.
      by rewrite list_elem_of_singleton.
Qed.

(** What a cell of a wide row can hold. *)
Lemma formatRow_cell r ms row k v :
  formatRow rowId colId bandAlias (r, ms) = Some row →
  ee.get row k = Some v →
  (k = rowId ∧ ee.get r rowId = Some v)
  ∨ ∃ t, t ∈ ms ∧ ee.get t colId = Some (VStr k)
         ∧ v = VStr (ee.format_2f (sampled_value bandAlias t)).
Proof.
  intros (values & Hm & Hget)%formatRow_properties. rewrite Hget.
  destruct (ee.Dictionary values !! k) as [v'|] eqn:Hd.
  - intros [= ->]. right. apply Dictionary_lookup_Some in Hd.
    destruct (mapM_elem_r _ _ _ _ Hm Hd) as (t & Ht & Hcell).
    apply formatCell_Some in Hcell as [? ?]. eauto.
  - case_decide; [| done]. intros ?. by left.
Qed.

(** Every image id among the matches of a row is one of its cells. *)
Lemma formatRow_column r ms row t c :
  formatRow rowId colId bandAlias (r, ms) = Some row →
  t ∈ ms → ee.get t colId = Some (VStr c) →
  ∃ t', t' ∈ ms ∧ ee.get t' colId = Some (VStr c)
        ∧ ee.get row c = Some (VStr (ee.format_2f (sampled_value bandAlias t'))).
Proof.
  intros (values & Hm & Hget)%formatRow_properties Ht Hc.
  destruct (mapM_elem_l _ _ _ _ Hm Ht) as ([c' v] & Hkv & Hcell).
  pose proof (formatCell_Some _ _ _ Hcell) as [Hc' _].
  assert (c' = c) as -> by congruence.
  assert (Hsome : is_Some (ee.Dictionary values !! c)).
  { apply Dictionary_lookup_is_Some, list_elem_of_fmap.
    exists (c, v). split; [done | done]. }
  destruct Hsome as [v' Hv']. rewrite Hget, Hv'.
  apply Dictionary_lookup_Some in Hv'.
  destruct (mapM_elem_r _ _ _ _ Hm Hv') as (t' & Ht' & Hcell').
  apply formatCell_Some in Hcell' as [? ->]. eauto.
Qed.

Lemma formatTable_rows table wide :
  formatTable table rowId colId bandAlias = Some wide →
  Forall2 (λ jr row, formatRow rowId colId bandAlias jr = Some row)
          (joinedRows table rowId) wide.
Proof. apply mapM_Some_1. Qed.

(** On a triplet table the pivot succeeds. *)
Lemma formatTable_total table :
  triplet_table rowId colId bandAlias table = true →
  is_Some (formatTable table rowId colId bandAlias).
Proof.
  intros Htt. apply mapM_is_Some_2, list.Forall_forall. intros [r ms] Hin.
  apply joinedRows_inv in Hin as (_ & _ & p & _ & Hms).
  simpl. unfold formatRow.
  assert (Hcells : is_Some (mapM (formatCell colId bandAlias) ms)).
  { apply mapM_is_Some_2, list.Forall_forall. intros t [Ht _]%Hms.
    apply formatCell_triplet.
    unfold triplet_table in Htt. rewrite forallb_forall in Htt.
    apply Htt. by apply list_elem_of_In. }
  destruct Hcells as [values ->]. simpl. eauto.
Qed.

End formatTable_facts.

Lemma Forall2_impl_elem {A B} (P Q : A → B → Prop) (l : list A) (k : list B) :
  Forall2 P l k → (∀ x y, x ∈ l → P x y → Q x y) → Forall2 Q l k.
Proof.
  induction 1 as [|x y l k Hxy _ IH]; intros HPQ; constructor.
  - apply HPQ; [left | done].
  - apply IH. intros x' y' Hx'. apply HPQ. by right.
Qed.

Lemma format_2f_sentinel : ee.format_2f sentinel = "-9999.00".
Proof. reflexivity. Qed.

Lemma pretty_N_char_digit (n : N) : is_digit (pretty_N_char n) = true.
Proof.
  unfold pretty_N_char. by repeat case_match.
Qed.

Lemma string_app_cons a s t : String a s +:+ t = String a (s +:+ t).
Proof. reflexivity. Qed.

Lemma string_app_assoc s1 s2 s3 : (s1 +:+ s2) +:+ s3 = s1 +:+ (s2 +:+ s3).
Proof.
  induction s1 as [|a s1 IH]; [done |].
  rewrite !string_app_cons. by f_equal.
Qed.

Lemma string_app_length s t :
  String.length (s +:+ t) = (String.length s + String.length t)%nat.
Proof.
  induction s as [|a s IH]; [done |].
  rewrite string_app_cons. simpl. by f_equal.
Qed.

Lemma string_app_inj_r s1 s2 t : s1 +:+ t = s2 +:+ t → s1 = s2.
Proof.
  revert s2. induction s1 as [|a s1 IH]; intros [|b s2] Heq.
  - done.
  - apply (f_equal String.length) in Heq.
    change ("" +:+ t) with t in Heq.
    rewrite string_app_length in Heq. simpl in Heq. lia.
  - apply (f_equal String.length) in Heq.
    change ("" +:+ t) with t in Heq.
    rewrite string_app_length in Heq. simpl in Heq. lia.
  - rewrite !string_app_cons in Heq. injection Heq as -> Heq.
    f_equal. by apply IH.
Qed.

Lemma format_2f_two_decimals (q : Qc) : two_decimals (ee.format_2f q).
Proof.
  unfold two_decimals, ee.format_2f.
  set (h := (200 * Z.abs (Qnum q) + Z.pos (Qden q)) `div` (2 * Z.pos (Qden q))).
  exists ((if bool_decide (Qnum q < 0) then "-" else "") +:+ pretty (h `div` 100)),
    (pretty_N_char (Z.to_N ((h `mod` 100) `div` 10))),
    (pretty_N_char (Z.to_N (h `mod` 10))).
  split; [| split; apply pretty_N_char_digit].
  by rewrite string_app_assoc.
Qed.

(** ** Facts about ['%.2f'] *)

Lemma digit_value_char (x : N) :
  (x < 10)%N → digit_value (pretty_N_char x) = Some x.
Proof.
  intros Hx. destruct x as [|p]; [done |].
  repeat (destruct p as [p|p|]; try done; try lia).
Qed.

Lemma digits_value_go (x : N) (s : string) (v w : N) :
  digits_value s = Some (v, w) →
  ∃ w', digits_value (pretty_N_go x s) = Some (x * w + v, w')%N.
Proof.
  revert s v w. induction (N.lt_wf_0 x) as [x _ IH]. intros s v w Hs.
  assert (x = 0 ∨ 0 < x)%N as [-> | Hx] by lia.
  - rewrite pretty_N_go_0. exists w. by rewrite Hs.
  - rewrite pretty_N_go_step by done.
    assert (Hstep : digits_value (String (pretty_N_char (x `mod` 10)) s)
                    = Some ((x `mod` 10) * w + v, 10 * w)%N).
    { simpl. rewrite digit_value_char by (apply N.mod_lt; lia).
      simpl. by rewrite Hs. }
    destruct (IH (x `div` 10)%N (N.div_lt x 10 Hx eq_refl) _ _ _ Hstep)
      as [w' Hw'].
    exists w'. rewrite Hw'. do 2 f_equal.
    pose proof (N.div_mod x 10). lia.
Qed.

Lemma digits_value_pretty (z : Z) :
  0 ≤ z → ∃ w, digits_value (pretty z) = Some (Z.to_N z, w).
Proof.
  intros Hz. destruct z as [|p|p]; [by exists 10%N | | lia].
  unfold pretty, pretty_Z, pretty, pretty_positive, pretty, pretty_N.
  rewrite decide_False by done.
  destruct (digits_value_go (N.pos p) "" 0 1 eq_refl) as [w Hw].
  exists w. rewrite Hw. do 2 f_equal. simpl. lia.
Qed.

Lemma digits_value_not_char (a : string) (c0 : ascii) vw :
  digit_value c0 = None → digits_value a = Some vw →
  match a with String c _ => c ≠ c0 | "" => True end.
Proof.
  intros Hc0. destruct a as [|c a]; [done |]. simpl.
  destruct (digit_value c) eqn:Hc; [| done]. intros _ ->. congruence.
Qed.

Lemma split_point_digits (a b : string) vw :
  digits_value a = Some vw →
  split_point (a +:+ "." +:+ b) = Some (a, b).
Proof.
  revert vw. induction a as [|c a IH]; intros vw Ha.
  - reflexivity.
  - rewrite string_app_cons. simpl.
    pose proof (digits_value_not_char (String c a) "."%char vw eq_refl Ha) as Hc.
    simpl in Hc. rewrite decide_False by done.
    simpl in Ha. destruct (digit_value c); [| done]. simpl in Ha.
    destruct (digits_value a) as [vw'|] eqn:Ha'; [| done].
    by rewrite (IH vw').
Qed.

Lemma hundredths_bounds (q : Qc) :
  0 ≤ hundredths q
  ∧ 200 * Z.abs (Qnum q) - Z.pos (Qden q)
    < 2 * Z.pos (Qden q) * hundredths q
    ≤ 200 * Z.abs (Qnum q) + Z.pos (Qden q).
Proof.
  unfold hundredths.
  set (d := Z.pos (Qden q)). set (a := Z.abs (Qnum q)).
  assert (0 < d) by (unfold d; lia). assert (0 ≤ a) by (unfold a; lia).
  pose proof (Z.div_mod (200 * a + d) (2 * d)).
  pose proof (Z.mod_pos_bound (200 * a + d) (2 * d)).
  assert (0 ≤ (200 * a + d) `div` (2 * d)) by (apply Z.div_pos; lia).
  lia.
Qed.

Lemma decimal_value_format_2f (q : Qc) :
  decimal_value (ee.format_2f q)
  = Some (if bool_decide (Qnum q < 0)
          then (- Q2Qc (hundredths q # 100))%Qc
          else Q2Qc (hundredths q # 100)).
Proof.
  pose proof (hundredths_bounds q) as [Hh _].
  unfold ee.format_2f. fold (hundredths q). set (h := hundredths q) in *.
  set (tail := String (pretty_N_char (Z.to_N ((h `mod` 100) `div` 10)))
                 (String (pretty_N_char (Z.to_N (h `mod` 10))) "")).
  assert (Hip : 0 ≤ h `div` 100) by (apply Z.div_pos; lia).
  destruct (digits_value_pretty _ Hip) as [w Hw].
  assert (Htail : digits_value tail = Some (Z.to_N (h `mod` 100), 100%N)).
  { unfold tail. simpl.
    pose proof (Z.mod_pos_bound h 100). pose proof (Z.mod_pos_bound h 10).
    pose proof (Z.div_mod (h `mod` 100) 10).
    assert (0 ≤ (h `mod` 100) `div` 10 < 10)
      by (split; [apply Z.div_pos; lia | apply Z.div_lt_upper_bound; lia]).
    assert (h `mod` 10 = (h `mod` 100) `mod` 10) as Hmod.
    { symmetry. apply Z.mod_mod_divide. by exists 10. }
    rewrite !digit_value_char by lia. simpl. do 2 f_equal. lia. }
  clearbody tail h.
  assert (Hbody : unsigned_value (pretty (h `div` 100) +:+ "." +:+ tail)
                  = Some (Q2Qc (h # 100))).
  { unfold unsigned_value.
    rewrite (split_point_digits _ tail _ Hw). simpl.
    rewrite Hw. simpl. rewrite Htail. simpl. do 2 f_equal.
    pose proof (Z.div_mod h 100). pose proof (Z.mod_pos_bound h 100).
    f_equal. lia. }
  case_bool_decide.
  - change ("-" +:+ ?s) with (String "-" s).
    unfold decimal_value. rewrite decide_True by done. by rewrite Hbody.
  - change ("" +:+ ?s) with s.
    pose proof (digits_value_not_char _ "-"%char _ eq_refl Hw) as Hfirst.
    destruct (pretty (h `div` 100)) as [|c ip] eqn:Hpretty.
    + change ("" +:+ "." +:+ tail) with (String "." tail) in *.
      unfold decimal_value. by rewrite decide_False.
    + rewrite string_app_cons. unfold decimal_value.
      rewrite decide_False by done. by rewrite <- string_app_cons.
Qed.

Lemma Qc_near_hundredths (q : Qc) :
  let x := if bool_decide (Qnum q < 0)
           then (- Q2Qc (hundredths q # 100))%Qc
           else Q2Qc (hundredths q # 100) in
  (q - half_hundredth ≤ x)%Qc ∧ (x ≤ q + half_hundredth)%Qc.
Proof.
  pose proof (hundredths_bounds q) as (Hh & Hlo & Hhi).
  set (h := hundredths q) in *. clearbody h.
  destruct q as [[n d] Hcanon]. simpl in *.
  unfold Qcle, Qcminus, Qcplus, Qcopp, half_hundredth, Q2Qc.
  case_bool_decide as Hn; simpl; rewrite !Qred_correct;
    unfold Qle, Qplus, Qopp; simpl; lia.
Qed.

(** What ['%.2f'] prints denotes the number rounded to two decimals. *)
Lemma format_2f_renders (q : Qc) : renders_2f q (ee.format_2f q).
Proof.
  split; [apply format_2f_two_decimals |].
  eexists. split; [apply decimal_value_format_2f | apply Qc_near_hundredths].
Qed.

Section formatTable_claims.

Variables rowId colId bandAlias : string.
Implicit Types (r t row : Feature) (ms table wide : list Feature).

Lemma image_ids_elem table c :
  c ∈ image_ids colId table ↔ ∃ t, t ∈ table ∧ ee.get t colId = Some (VStr c).
Proof.
  unfold image_ids, image_id_of.
  rewrite elem_of_list_to_set, list_elem_of_omap. split.
  - intros (t & Ht & Hc). exists t. split; [done |].
    destruct (ee.get t colId) as [[q|s]|]; congruence.
  - intros (t & Ht & Hc). exists t. by rewrite Hc.
Qed.

Lemma formatTable_length table wide :
  formatTable table rowId colId bandAlias = Some wide →
  length wide = length (remove_dups (point_ids rowId table)).
Proof.
  intros Hrows%formatTable_rows. apply Forall2_length in Hrows as <-.
  rewrite <- (length_fmap (λ jr, ee.get jr.1 rowId)).
  rewrite <- (length_fmap Some (remove_dups _)).
  apply Permutation_length, NoDup_Permutation.
  - apply joinedRows_NoDup.
  - apply (NoDup_fmap_2 _), NoDup_remove_dups.
  - intros x. rewrite !list_elem_of_fmap. split.
    + intros ([r ms] & -> & Hin). simpl.
      apply joinedRows_inv in Hin as (Hr & _ & p & Hp & _).
      exists p. split; [done |]. apply elem_of_remove_dups.
      unfold point_ids. apply list_elem_of_omap. eauto.
    + intros (p & -> & Hp). rewrite elem_of_remove_dups in Hp.
      unfold point_ids in Hp. apply list_elem_of_omap in Hp as (t & Ht & Hp).
      destruct (joinedRows_point rowId table t p Ht Hp) as (r & ms & Hin & Hr & _).
      exists (r, ms). by split.
Qed.

Lemma formatRow_dom r ms row :
  formatRow rowId colId bandAlias (r, ms) = Some row →
  is_Some (ee.get r rowId) →
  dom (properties row) = {[rowId]} ∪ image_ids colId ms.
Proof.
  intros Hrow [p Hp]. apply set_eq. intros k.
  rewrite elem_of_dom, elem_of_union, elem_of_singleton, image_ids_elem.
  split.
  - intros [v Hv].
    destruct (formatRow_cell _ _ _ _ _ _ _ _ Hrow Hv) as [[-> _] | (t & ? & ? & _)];
      [by left | right; eauto].
  - intros [-> | (t & Ht & Hc)].
    + destruct (formatRow_properties _ _ _ _ _ _ Hrow) as (values & _ & Hget).
      unfold ee.get in Hget. rewrite Hget.
      destruct (ee.Dictionary values !! rowId); [by eauto |].
      rewrite decide_True by done. unfold ee.get in Hp. by rewrite Hp.
    + destruct (formatRow_column _ _ _ _ _ _ _ _ Hrow Ht Hc) as (t' & _ & _ & Hv).
      by eexists.
Qed.

Lemma formatRow_rowId r ms row :
  formatRow rowId colId bandAlias (r, ms) = Some row →
  rowId ∉ image_ids colId ms →
  ee.get row rowId = ee.get r rowId.
Proof.
  intros Hrow Hni.
  destruct (formatRow_properties _ _ _ _ _ _ Hrow) as (values & Hm & Hget).
  rewrite Hget. destruct (ee.Dictionary values !! rowId) as [v|] eqn:Hd.
  - exfalso. apply Hni, image_ids_elem.
    apply Dictionary_lookup_Some in Hd.
    destruct (mapM_elem_r _ _ _ _ Hm Hd) as (t & Ht & Hcell).
    apply formatCell_Some in Hcell as [? _]. eauto.
  - by rewrite decide_True.
Qed.

End formatTable_claims.

(** ** The properties of [formatTable] *)

Section formatTable_theorems.

Variables rowId colId bandAlias : string.
Implicit Types (r t row : Feature) (ms table wide : list Feature).

Lemma triplet_table_elem table t :
  triplet_table rowId colId bandAlias table = true → t ∈ table →
  is_Some (ee.get t rowId).
Proof.
  unfold triplet_table. rewrite forallb_forall. intros Htt Ht.
  apply list_elem_of_In, Htt in Ht. unfold is_triplet in Ht.
  destruct (ee.get t rowId); [by eauto | done].
Qed.

(** C4: on every long-format triplet table, [formatTable] returns as
    many rows as the table has distinct point ids. *)
Theorem formatTable_row_count table :
  triplet_table rowId colId bandAlias table = true →
  ∃ wide, formatTable table rowId colId bandAlias = Some wide
          ∧ length wide = length (remove_dups (point_ids rowId table)).
Proof.
  intros [wide Hwide]%formatTable_total. exists wide. split; [done |].
  by eapply formatTable_length.
Qed.

(** C3, as amended: on every long-format triplet table, the columns of
    the wide table are the distinct image ids of the triplets together
    with, when the table is not empty, the row identifier. *)
Theorem formatTable_columns table :
  triplet_table rowId colId bandAlias table = true →
  ∃ wide, formatTable table rowId colId bandAlias = Some wide
          ∧ columns wide
            = match table with [] => ∅ | _ :: _ => {[rowId]} end
              ∪ image_ids colId table.
Proof.
  intros Htt. destruct (formatTable_total _ _ _ _ Htt) as [wide Hwide].
  exists wide. split; [done |].
  assert (Hin : ∀ k, k ∈ image_ids colId table → k ∈ columns wide).
  { intros k (t & Ht & Hc)%image_ids_elem.
    destruct (triplet_table_elem _ _ Htt Ht) as [p Hp].
    destruct (joinedRows_point rowId table t p Ht Hp) as (r & ms & Hjr & _ & Htms).
    destruct (mapM_elem_l _ _ _ _ Hwide Hjr) as (row & Hrow & Hfr).
    destruct (formatRow_column _ _ _ _ _ _ _ _ Hfr Htms Hc) as (t' & _ & _ & Hv).
    unfold columns. apply elem_of_union_list.
    exists (dom (properties row)). split.
    - apply list_elem_of_fmap. eauto.
    - apply elem_of_dom. by eexists. }
  assert (Hout : ∀ k, k ∈ columns wide →
            (k = rowId ∧ table ≠ []) ∨ k ∈ image_ids colId table).
  { intros k. unfold columns. rewrite elem_of_union_list.
    intros (X & (row & -> & Hrow)%list_elem_of_fmap & [v Hv]%elem_of_dom).
    destruct (mapM_elem_r _ _ _ _ Hwide Hrow) as ([r ms] & Hjr & Hfr).
    apply joinedRows_inv in Hjr as (Hr & _ & p & _ & Hms).
    destruct (formatRow_cell _ _ _ _ _ _ _ _ Hfr Hv) as [[-> _] | (t & Ht & Hc & _)].
    - left. split; [done |]. intros ->. by apply elem_of_nil in Hr.
    - right. apply image_ids_elem. exists t. split; [by apply Hms | done]. }
  assert (Hkey : table ≠ [] → rowId ∈ columns wide).
  { destruct table as [|t table']; [done |]. intros _.
    assert (Ht : t ∈ t :: table') by left.
    destruct (triplet_table_elem _ _ Htt Ht) as [p Hp].
    destruct (joinedRows_point rowId _ t p Ht Hp) as (r & ms & Hjr & Hrp & _).
    destruct (mapM_elem_l _ _ _ _ Hwide Hjr) as (row & Hrow & Hfr).
    unfold columns. apply elem_of_union_list.
    exists (dom (properties row)). split.
    - apply list_elem_of_fmap. eauto.
    - rewrite (formatRow_dom _ _ _ _ _ _ Hfr (mk_is_Some _ _ Hrp)).
      rewrite elem_of_union, elem_of_singleton. by left. }
  apply set_eq. intros k. rewrite elem_of_union. split.
  - intros [[-> Hne] | Hk]%Hout; [left | by right].
    destruct table; [done |]. by apply elem_of_singleton.
  - intros [Hk | Hk]; [| by apply Hin].
    destruct table as [|t table']; [by apply not_elem_of_empty in Hk |].
    apply elem_of_singleton in Hk as ->. by apply Hkey.
Qed.

(** C5: every value cell of a wide row is the fixed-precision rendering
    of the number of one of the row's triplets for that image, its sample
    or the sentinel when the sample is [null]: a decimal string with two
    digits after the point that denotes the number rounded to the
    nearest hundredth. *)
Theorem formatTable_cells table :
  triplet_table rowId colId bandAlias table = true →
  ∃ wide, formatTable table rowId colId bandAlias = Some wide
    ∧ Forall2 (λ '(_, ms) row,
                 ∀ c, c ∈ image_ids colId ms →
                   ∃ t, t ∈ ms ∧ ee.get t colId = Some (VStr c)
                     ∧ ee.get row c
                       = Some (VStr (ee.format_2f (sampled_value bandAlias t)))
                     ∧ renders_2f (sampled_value bandAlias t)
                         (ee.format_2f (sampled_value bandAlias t)))
              (joinedRows table rowId) wide.
Proof.
  intros [wide Hwide]%formatTable_total. exists wide. split; [done |].
  eapply Forall2_impl_elem; [exact (formatTable_rows _ _ _ _ _ Hwide) |].
  intros [r ms] row _ Hfr c (t & Ht & Hc)%image_ids_elem.
  destruct (formatRow_column _ _ _ _ _ _ _ _ Hfr Ht Hc) as (t' & ? & ? & ?).
  exists t'. eauto using format_2f_renders.
Qed.

(** C9: every row of the wide table keeps the row identifier and holds,
    besides it, nothing but image-id columns; any other property of the
    input features is gone. *)
Theorem formatTable_frame table :
  triplet_table rowId colId bandAlias table = true →
  ∃ wide, formatTable table rowId colId bandAlias = Some wide
    ∧ Forall (λ row,
                is_Some (ee.get row rowId)
                ∧ ∀ k, k ≠ rowId → k ∉ image_ids colId table →
                       ee.get row k = None) wide.
Proof.
  intros [wide Hwide]%formatTable_total. exists wide. split; [done |].
  apply list.Forall_forall. intros row Hrow.
  destruct (mapM_elem_r _ _ _ _ Hwide Hrow) as ([r ms] & Hjr & Hfr).
  apply joinedRows_inv in Hjr as (_ & _ & p & Hp & Hms).
  pose proof (formatRow_dom _ _ _ _ _ _ Hfr (mk_is_Some _ _ Hp)) as Hdom.
  split.
  - apply elem_of_dom. rewrite Hdom, elem_of_union, elem_of_singleton. by left.
  - intros k Hk Hni. apply not_elem_of_dom. rewrite Hdom.
    rewrite elem_of_union, elem_of_singleton, image_ids_elem.
    intros [? | (t & Ht & Hc)]; [done |].
    apply Hni, image_ids_elem. exists t. split; [by apply Hms | done].
Qed.

(** C2, as amended: when the table has a triplet of point [p] and image
    [c] and none of them has a value, the row of [p] holds the sentinel,
    rendered as [-9999.00], in column [c]; when the table has no triplet
    of [p] and [c], and [c] is not the name of the row identifier, the
    row of [p] has no cell in column [c]. *)
Theorem formatTable_sentinel table :
  triplet_table rowId colId bandAlias table = true →
  ∃ wide, formatTable table rowId colId bandAlias = Some wide
    ∧ Forall2 (λ '(r, _) row,
                 ∀ p c, ee.get r rowId = Some p →
                   (has_pair rowId colId table p c →
                    unmeasured rowId colId bandAlias table p c →
                    ee.get row c = Some (VStr "-9999.00"))
                   ∧ (¬ has_pair rowId colId table p c → c ≠ rowId →
                      ee.get row c = None))
              (joinedRows table rowId) wide.
Proof.
  intros [wide Hwide]%formatTable_total. exists wide. split; [done |].
  eapply Forall2_impl_elem; [exact (formatTable_rows _ _ _ _ _ Hwide) |].
  intros [r ms] row Hjr Hfr p c Hp.
  apply joinedRows_inv in Hjr as (_ & _ & p' & Hp' & Hms).
  assert (p' = p) as -> by congruence.
  split.
  - intros (t & Ht & Htp & Htc) Hun.
    assert (Htms : t ∈ ms) by by apply Hms.
    destruct (formatRow_column _ _ _ _ _ _ _ _ Hfr Htms Htc)
      as (t' & Ht' & Hc' & ->).
    apply Hms in Ht' as [Ht' Hp''].
    unfold sampled_value. by rewrite (Hun t' Ht' Hp'' Hc').
  - intros Hno Hc.
    destruct (ee.get row c) as [v|] eqn:Hv; [| done].
    destruct (formatRow_cell _ _ _ _ _ _ _ _ Hfr Hv)
      as [[-> _] | (t & Ht & Htc & _)]; [done |].
    exfalso. apply Hno. exists t. apply Hms in Ht as [? ?]. eauto.
Qed.

End formatTable_theorems.

Lemma formatTable_row_count_witness :
  ∃ wide, formatTable sample_table "id" "imageId" "ndvi" = Some wide
          ∧ length wide = length (remove_dups (point_ids "id" sample_table)).
Proof. apply formatTable_row_count. reflexivity. Defined.

Lemma formatTable_columns_witness :
  ∃ wide, formatTable sample_table "id" "imageId" "ndvi" = Some wide
          ∧ columns wide = {["id"]} ∪ image_ids "imageId" sample_table.
Proof. apply (formatTable_columns "id" "imageId" "ndvi" sample_table). reflexivity. Defined.

(** C3, as stated, fails: the wide table of [sample_table] has the column
    [id], which is not an image id. *)
Lemma columns_are_image_ids_fails : ¬ columns_are_image_ids.
Proof.
  intros H.
  specialize (H sample_table "id" "imageId" "ndvi" _ eq_refl eq_refl).
  assert (Hid : "id" ∈ image_ids "imageId" sample_table).
  { rewrite <- H. apply (bool_decide_unpack _). by vm_compute. }
  apply image_ids_elem in Hid as (t & Ht & Hc). unfold sample_table in Ht.
  rewrite !elem_of_cons, elem_of_nil in Ht.
  destruct Ht as [-> | [-> | [-> | [-> | []]]]]; vm_compute in Hc; congruence.
Qed.

Lemma formatTable_cells_witness :
  ∃ wide, formatTable sample_table "id" "imageId" "ndvi" = Some wide
    ∧ Forall2 (λ '(_, ms) row,
                 ∀ c, c ∈ image_ids "imageId" ms →
                   ∃ t, t ∈ ms ∧ ee.get t "imageId" = Some (VStr c)
                     ∧ ee.get row c
                       = Some (VStr (ee.format_2f (sampled_value "ndvi" t)))
                     ∧ renders_2f (sampled_value "ndvi" t)
                         (ee.format_2f (sampled_value "ndvi" t)))
              (joinedRows sample_table "id") wide.
Proof. apply formatTable_cells. reflexivity. Defined.

Lemma formatTable_frame_witness :
  ∃ wide, formatTable sample_table "id" "imageId" "ndvi" = Some wide
    ∧ Forall (λ row,
                is_Some (ee.get row "id")
                ∧ ∀ k, k ≠ "id" → k ∉ image_ids "imageId" sample_table →
                       ee.get row k = None) wide.
Proof. apply formatTable_frame. reflexivity. Defined.

Lemma formatTable_sentinel_witness :
  ∃ wide, formatTable sample_table "id" "imageId" "ndvi" = Some wide
    ∧ Forall2 (λ '(r, _) row,
                 ∀ p c, ee.get r "id" = Some p →
                   (has_pair "id" "imageId" sample_table p c →
                    unmeasured "id" "imageId" "ndvi" sample_table p c →
                    ee.get row c = Some (VStr "-9999.00"))
                   ∧ (¬ has_pair "id" "imageId" sample_table p c → c ≠ "id" →
                      ee.get row c = None))
              (joinedRows sample_table "id") wide.
Proof. apply formatTable_sentinel. reflexivity. Defined.

(** C2, as stated, fails: in [sparse_table] point [a] has no triplet for
    image [c2], and its row gets no cell in that column. *)
Lemma sentinel_fills_every_cell_fails : ¬ sentinel_fills_every_cell.
Proof.
  intros H.
  specialize (H sparse_table "id" "imageId" "ndvi" _ eq_refl eq_refl).
  eapply (Forall2_lookup_lr _ _ _ 0%nat) in H; [| reflexivity | reflexivity].
  specialize (H (VStr "a") "c2" eq_refl).
  assert (Hc : "c2" ∈ image_ids "imageId" sparse_table).
  { apply image_ids_elem. eexists. split; [right; left | reflexivity]. }
  assert (Hun : unmeasured "id" "imageId" "ndvi" sparse_table (VStr "a") "c2").
  { intros t Ht. unfold sparse_table in Ht.
    rewrite !elem_of_cons, elem_of_nil in Ht.
    destruct Ht as [-> | [-> | []]]; vm_compute; congruence. }
  specialize (H Hc Hun). vm_compute in H. discriminate.
Qed.

(** ** The properties of the scaling step *)

Section scaling.

Variable retained : string → bool.
Variable product : Qc → Qc → Qc.

(** C8: the scaled image carries the [system:time_start] and
    [system:time_end] of the image it was computed from. *)
Theorem scaleImage_time_properties (multiplier : Qc) (image : Image) :
  image_properties (scaleImage retained product multiplier image) !! "system:time_start"
  = image_properties image !! "system:time_start"
  ∧ image_properties (scaleImage retained product multiplier image) !! "system:time_end"
    = image_properties image !! "system:time_end".
Proof.
  unfold scaleImage, ee.copyProperties, ee.multiply. simpl.
  assert (Hbase : ∀ k, image_properties image !! k = None →
            filter (λ kv : string * Value, retained kv.1 = true)
              (image_properties image) !! k = None).
  { intros k Hk. apply map_lookup_filter_None. left. done. }
  destruct (image_properties image !! "system:time_start") as [s|] eqn:Hs;
    destruct (image_properties image !! "system:time_end") as [e|] eqn:He;
    rewrite ?lookup_insert_eq, ?lookup_insert_ne by done;
    rewrite ?lookup_insert_eq; auto.
Qed.

Lemma scaleImage_id (multiplier : Qc) (image : Image) :
  image_id (scaleImage retained product multiplier image) = image_id image.
Proof. reflexivity. Qed.

Lemma Image_select_inv band image selected :
  ee.Image_select band image = Some selected →
  image_id selected = image_id image
  ∧ Forall (λ b, b.1 = band) (image_bands selected).
Proof.
  unfold ee.Image_select.
  destruct (filter _ (image_bands image)) as [|b bs] eqn:Hf; [done |].
  intros [= <-]. simpl. split; [done |]. rewrite <- Hf.
  apply list.Forall_forall. by intros x [? _]%list_elem_of_filter.
Qed.

(** The scaling step keeps the images, their ids and the names of their
    bands, and leaves masked pixels masked; every other pixel of the
    selected band is what the platform's multiplication makes of the
    original pixel and the multiplier. *)
Lemma scaledBand_structure (imageCollection : list Image)
    (startDate endDate : Qc) (band : string) (multiplier : Qc)
    (fl : list Image) :
  filtered imageCollection startDate endDate band = Some fl →
  Forall2 (λ image scaled,
             image_id scaled = image_id image
             ∧ Forall2 (λ b sb : string * Raster,
                          b.1 = band ∧ sb.1 = band
                          ∧ ∀ scale loc,
                              sb.2 scale loc
                              = (λ v, product v multiplier) <$> b.2 scale loc)
                       (image_bands image) (image_bands scaled))
          fl (scaledBand retained product multiplier fl).
Proof.
  unfold filtered, scaledBand. intros Hsel.
  apply Forall2_fmap_r, Forall_Forall2_diag, list.Forall_forall.
  intros image Himage.
  destruct (mapM_elem_r _ _ _ _ Hsel Himage) as (orig & _ & Ho).
  apply Image_select_inv in Ho as [_ Hbands].
  split; [done |]. simpl.
  rewrite list.Forall_forall in Hbands.
  apply Forall2_fmap_r, Forall_Forall2_diag, list.Forall_forall.
  intros b Hb%Hbands. simpl. done.
Qed.

End scaling.

(** ** The long-format table of [exportTimeSeries] *)

Section counting.

Context {A V : Type} `{EqDecision V}.

Lemma filter_none (P : A → Prop) `{∀ x, Decision (P x)} (l : list A) :
  (∀ x, x ∈ l → ¬ P x) → filter P l = [].
Proof.
  induction l as [|x l IH]; intros Hl; [done |].
  rewrite filter_cons_False by (apply Hl; left).
  apply IH. intros y Hy. apply Hl. by right.
Qed.

Lemma omap_as_fmap (h : A → option V) (l : list A) :
  omap h l = omap id (h <$> l).
Proof.
  induction l as [|x l IH]; [done |].
  change (omap h (x :: l))
    with (match h x with Some y => y :: omap h l | None => omap h l end).
  rewrite fmap_cons.
  change (omap id (h x :: (h <$> l)))
    with (match h x with
          | Some y => y :: omap id (h <$> l)
          | None => omap id (h <$> l)
          end).
  by rewrite IH.
Qed.

(** At most one element of a list has a given key when the keys that
    are present do not repeat. *)
Lemma filter_at_most_one (h : A → option V) (Q : A → Prop)
    `{∀ x, Decision (Q x)} (l : list A) (p : V) :
  NoDup (omap h l) →
  (length (filter (λ x, h x = Some p ∧ Q x) l) ≤ 1)%nat.
Proof.
  induction l as [|x l IH]; [simpl; lia |].
  change (omap h (x :: l))
    with (match h x with Some y => y :: omap h l | None => omap h l end).
  destruct (h x) as [v|] eqn:Hx.
  - rewrite list.NoDup_cons. intros [Hv Hl].
    rewrite filter_cons. case_decide as Hp; [| by apply IH].
    destruct Hp as [Hp _]. rewrite Hx in Hp. injection Hp as ->.
    rewrite filter_none; [simpl; lia |].
    intros y Hy [Hyp _]. apply Hv, list_elem_of_omap. eauto.
  - intros Hl. rewrite filter_cons_False; [by apply IH |].
    intros [? _]. congruence.
Qed.

End counting.

Section triplets.

Variable retained : string → bool.
Variable product : Qc → Qc → Qc.
Implicit Types (featureCollection table : list Feature) (image : Image).

Lemma sampleImage_inv featureCollection bandAlias scale image sampled :
  sampleImage featureCollection bandAlias scale image = Some sampled →
  Forall (λ t, ee.get t "imageId" = Some (VStr (image_id image))) sampled
  ∧ (bandAlias ≠ "id" →
     (λ t, ee.get t "id") <$> sampled
     = (λ f, ee.get f "id") <$> featureCollection).
Proof.
  unfold sampleImage, ee.reduceRegions.
  destruct (image_bands image) as [|[n r] [|? ?]]; simpl; try done.
  intros [= <-]. split.
  - apply list.Forall_forall. intros t (f & -> & _)%list_elem_of_fmap.
    unfold ee.get, ee.set. simpl. apply lookup_insert_eq.
  - intros Halias. rewrite <- !list_fmap_compose.
    apply list_fmap_ext. intros _ f _. unfold ee.get, ee.set. simpl.
    rewrite lookup_insert_ne by done.
    destruct (r scale (geometry f)); simpl.
    + by rewrite lookup_insert_ne.
    + by rewrite lookup_delete_ne.
Qed.

Lemma sampled_image_ids featureCollection bandAlias scale
    (images : list Image) (Ls : list (list Feature)) t :
  Forall2 (λ image L,
             sampleImage featureCollection bandAlias scale image = Some L)
          images Ls →
  t ∈ mjoin Ls →
  ∃ image, image ∈ images
           ∧ ee.get t "imageId" = Some (VStr (image_id image)).
Proof.
  induction 1 as [|image L images Ls HL _ IH]; simpl.
  - by intros ?%elem_of_nil.
  - rewrite elem_of_app. intros [Ht | Ht].
    + apply sampleImage_inv in HL as [Hid _].
      rewrite list.Forall_forall in Hid. exists image. split; [left | auto].
    + destruct (IH Ht) as (image' & ? & ?). exists image'.
      split; [by right | done].
Qed.

Lemma triplets_unique featureCollection bandAlias scale
    (images : list Image) table p c :
  NoDup (point_ids "id" featureCollection) →
  bandAlias ≠ "id" →
  NoDup (image_id <$> images) →
  triplets featureCollection bandAlias scale images = Some table →
  (length (pair_triplets table p c) ≤ 1)%nat.
Proof.
  intros Hpts Halias Himgs. unfold triplets.
  intros (sampled & Hm%mapM_Some_1 & ->)%fmap_Some.
  induction Hm as [|image L images Ls HL Htl IH]; [simpl; lia |].
  rewrite fmap_cons, list.NoDup_cons in Himgs. destruct Himgs as [Hfresh Himgs].
  apply sampleImage_inv in HL as [Hid Hkeys]. specialize (Hkeys Halias).
  unfold pair_triplets in *. simpl. rewrite list.filter_app, List.length_app.
  destruct (decide (image_id image = c)) as [<- | Hne].
  - rewrite (filter_none _ (mjoin Ls)).
    + rewrite Nat.add_0_r. apply filter_at_most_one.
      rewrite omap_as_fmap, Hkeys, <- omap_as_fmap. exact Hpts.
    + intros t Ht [_ Hc].
      destruct (sampled_image_ids _ _ _ _ _ _ Htl Ht) as (image' & Hin & Hid').
      apply Hfresh. rewrite Hc in Hid'. injection Hid' as ->.
      by apply list_elem_of_fmap_2.
  - rewrite (filter_none _ L).
    + simpl. by apply IH.
    + rewrite list.Forall_forall in Hid. intros t Ht%Hid [_ Hc]. congruence.
Qed.

Lemma filtered_ids (imageCollection : list Image) startDate endDate band fl :
  filtered imageCollection startDate endDate band = Some fl →
  NoDup (image_id <$> imageCollection) →
  NoDup (image_id <$> fl).
Proof.
  unfold filtered. intros Hm%mapM_Some_1 Hnd.
  assert (Heq : image_id <$> fl
                = image_id <$> ee.filterDate startDate endDate imageCollection).
  { induction Hm as [|x y l k Hxy _ IH]; [done |].
    apply (Image_select_inv) in Hxy as [Hxy _].
    rewrite !fmap_cons. by f_equal. }
  rewrite Heq. eapply sublist_NoDup; [exact Hnd |].
  apply fmap_sublist, sublist_filter.
Qed.

(** C6, as amended: when the point features have distinct ids, the
    images have distinct ids and the band alias is not [id], the
    long-format table has at most one triplet for a point id and an
    image id. *)
Theorem tripletTable_unique (imageCollection : list Image)
    featureCollection (startDate endDate : Qc) (band bandAlias : string)
    (scale multiplier : Qc) table :
  NoDup (point_ids "id" featureCollection) →
  NoDup (image_id <$> imageCollection) →
  bandAlias ≠ "id" →
  tripletTable retained product imageCollection featureCollection startDate endDate
    band bandAlias scale multiplier = Some table →
  ∀ p c, (length (pair_triplets table p c) ≤ 1)%nat.
Proof.
  intros Hpts Himgs Halias. unfold tripletTable.
  destruct (filtered _ _ _ _) as [fl|] eqn:Hfl; simpl; [| done].
  intros Ht p c.
  apply (triplets_unique featureCollection bandAlias scale
           (scaledBand retained product multiplier fl) table p c Hpts Halias);
    [| exact Ht].
  unfold scaledBand.
  change (NoDup (image_id <$> (scaleImage retained product multiplier <$> fl))).
  rewrite <- list_fmap_compose.
  erewrite list_fmap_ext; [by eapply filtered_ids |].
  by intros.
Qed.

End triplets.

Lemma tripletTable_unique_witness :
  (length (pair_triplets
             (default [] (tripletTable (λ _, false) exact_product sample_images sample_points
                            (Qc_of_Z 0) (Qc_of_Z 10) "NDVI" "ndvi"
                            (Qc_of_Z 250) (Q2Qc (1 # 4))))
             (VNum (Qc_of_Z 7)) "i1") ≤ 1)%nat.
Proof.
  refine (tripletTable_unique (λ _, false) exact_product sample_images sample_points
            (Qc_of_Z 0) (Qc_of_Z 10) "NDVI" "ndvi" (Qc_of_Z 250)
            (Q2Qc (1 # 4)) _ _ _ _ _ (VNum (Qc_of_Z 7)) "i1").
  - apply (bool_decide_unpack _). by vm_compute.
  - apply (bool_decide_unpack _). by vm_compute.
  - done.
  - reflexivity.
Defined.

(** C6, as stated, fails: with the band alias [id] the sample overwrites
    the id of every point, and two points under pixels of equal value
    yield two triplets with one id. *)
Lemma triplets_unique_per_pair_fails : ¬ triplets_unique_per_pair.
Proof.
  intros H.
  assert (Hpts : NoDup (point_ids "id" sample_points))
    by (apply (bool_decide_unpack _); by vm_compute).
  assert (Himgs : NoDup (image_id <$> sample_images))
    by (apply (bool_decide_unpack _); by vm_compute).
  epose proof (H (λ _, false) exact_product sample_images sample_points
                 (Qc_of_Z 0) (Qc_of_Z 6) "NDVI" "id" (Qc_of_Z 250) (Qc_of_Z 1)
                 _ Hpts Himgs eq_refl (VNum (Qc_of_Z 7)) "i1") as Hle.
  vm_compute in Hle. lia.
Qed.

(** ** The chunking helper *)

Section chunking.

Variable retained : string → bool.
Variable product : Qc → Qc → Qc.

Lemma chunk_prefix_inj (bandAlias : string) :
  Inj (=) (=) (λ i : nat, "chunk" +:+ pretty i +:+ "_" +:+ bandAlias).
Proof.
  intros i j Heq. apply (inj (String.app "chunk")) in Heq.
  apply string_app_inj_r in Heq. by apply (inj pretty).
Qed.

Lemma runCall_exports (c : ExportCall) :
  omap export_prefix (runCall retained product c) = [call_fileNamePrefix c].
Proof. reflexivity. Qed.

Lemma exports_of_calls (calls : list ExportCall) :
  omap export_prefix (flat_map (runCall retained product) calls)
  = call_fileNamePrefix <$> calls.
Proof.
  induction calls as [|c calls IH]; [done |].
  change (flat_map (runCall retained product) (c :: calls))
    with (runCall retained product c ++ flat_map (runCall retained product) calls).
  by rewrite omap_app, runCall_exports, IH.
Qed.

(** C10: the loop calls [exportTimeSeries] once per chunk index, in
    increasing order; the call of index [i] (counted from 1) gets the
    prefix ["chunk" + i + "_" + bandAlias], these are the prefixes of
    the export tasks that come out, and no two of them are equal. *)
Theorem divideAndExportTimeSeries_prefixes (collection : list Feature)
    (numChunks : nat) (imageCollection : list Image) (startDate endDate : Qc)
    (band bandAlias : string) (scale multiplier : Qc) (outputFolder : string) :
  let calls :=
    divideAndExportTimeSeries_calls collection numChunks imageCollection
      startDate endDate band bandAlias scale multiplier outputFolder in
  let prefixes :=
    (λ i : nat, "chunk" +:+ pretty i +:+ "_" +:+ bandAlias)
      <$> seq 1 numChunks in
  length calls = numChunks
  ∧ call_fileNamePrefix <$> calls = prefixes
  ∧ call_featureCollection <$> calls = chunks collection numChunks
  ∧ omap export_prefix
      (divideAndExportTimeSeries retained product collection numChunks imageCollection
         startDate endDate band bandAlias scale multiplier outputFolder)
    = prefixes
  ∧ NoDup prefixes.
Proof.
  intros calls prefixes.
  assert (Hp : call_fileNamePrefix <$> calls = prefixes).
  { unfold calls, prefixes, divideAndExportTimeSeries_calls.
    rewrite <- fmap_S_seq.
    change (map ?f ?l) with (f <$> l).
    rewrite <- !list_fmap_compose. apply list_fmap_ext.
    intros _ i _. simpl. by rewrite Nat.add_1_r. }
  split; [| split; [done | split; [| split]]].
  - unfold calls, divideAndExportTimeSeries_calls.
    by rewrite List.length_map, List.length_seq.
  - unfold calls, divideAndExportTimeSeries_calls, chunks.
    change (map ?f ?l) with (f <$> l).
    by rewrite <- list_fmap_compose.
  - unfold divideAndExportTimeSeries. fold calls.
    by rewrite exports_of_calls.
  - unfold prefixes. apply (NoDup_fmap_2 _ (Inj0 := chunk_prefix_inj bandAlias)).
    apply NoDup_seq.
Qed.

End chunking.

Lemma getSubset_spec (collection : list Feature) (startIndex endIndex : nat) :
  getSubset collection startIndex endIndex
  = take endIndex (drop startIndex collection).
Proof. reflexivity. Qed.

Lemma chunks_lookup (collection : list Feature) (numChunks i : nat) :
  (i < numChunks)%nat →
  chunks collection numChunks !! i
  = Some (take ((i + 1) * ee.divide_ceil (length collection) numChunks)
            (drop (i * ee.divide_ceil (length collection) numChunks) collection)).
Proof.
  intros Hi. unfold chunks.
  change (map ?f ?l) with (f <$> l).
  rewrite list_lookup_fmap, lookup_seq_lt by done. simpl.
  unfold getSubset, ee.toList. do 2 f_equal. lia.
Qed.

(** X12: with three chunks or more, the feature at index twice the chunk
    size is handed to the second sub-request and to the third. *)
Lemma chunks_share (collection : list Feature) (numChunks : nat) (x : Feature) :
  (3 ≤ numChunks)%nat →
  collection !! (2 * ee.divide_ceil (length collection) numChunks)%nat = Some x →
  ∃ c1 c2, chunks collection numChunks !! 1%nat = Some c1
           ∧ chunks collection numChunks !! 2%nat = Some c2
           ∧ x ∈ c1 ∧ x ∈ c2.
Proof.
  intros Hk Hx.
  set (cs := ee.divide_ceil (length collection) numChunks) in *.
  assert (Hcs : cs ≠ 0%nat).
  { intros H0. apply lookup_lt_Some in Hx. rewrite H0 in Hx.
    unfold cs, ee.divide_ceil in H0. apply Nat.div_small_iff in H0; lia. }
  eexists _, _.
  split; [apply chunks_lookup; lia |]. split; [apply chunks_lookup; lia |].
  fold cs. split.
  - apply (list_elem_of_lookup_2 _ cs). rewrite lookup_take_lt by lia.
    rewrite lookup_drop. rewrite <- Hx. f_equal. lia.
  - apply (list_elem_of_lookup_2 _ 0%nat). rewrite lookup_take_lt by lia.
    rewrite lookup_drop. rewrite <- Hx. f_equal. lia.
Qed.

(** X13: with one chunk or more, every feature is handed to some
    sub-request. *)
Lemma chunks_cover (collection : list Feature) (numChunks : nat) (x : Feature) :
  (1 ≤ numChunks)%nat → x ∈ collection →
  ∃ c, c ∈ chunks collection numChunks ∧ x ∈ c.
Proof.
  intros Hk [j Hj]%list_elem_of_lookup_1.
  set (cs := ee.divide_ceil (length collection) numChunks).
  pose proof (lookup_lt_Some _ _ _ Hj) as Hlen.
  assert (Hceil : (length collection ≤ numChunks * cs)%nat).
  { unfold cs, ee.divide_ceil.
    pose proof (Nat.div_mod_eq (length collection + (numChunks - 1)) numChunks).
    pose proof (Nat.mod_upper_bound (length collection + (numChunks - 1))
                  numChunks).
    lia. }
  assert (Hcs : cs ≠ 0%nat) by (intros H0; rewrite H0 in Hceil; lia).
  pose proof (Nat.div_mod_eq j cs) as Hdiv.
  pose proof (Nat.mod_upper_bound j cs Hcs) as Hmod.
  assert (Hi : (j `div` cs < numChunks)%nat).
  { apply Nat.Div0.div_lt_upper_bound. lia. }
  eexists. split.
  - eapply list_elem_of_lookup_2. by apply chunks_lookup.
  - fold cs. apply (list_elem_of_lookup_2 _ (j `mod` cs)%nat).
    rewrite lookup_take_lt by lia. rewrite lookup_drop, <- Hj. f_equal. lia.
Qed.

(** C1: on three points and three chunks the sub-requests get the
    points of index 0, of indices 1 and 2, and of index 2: the last
    point is exported twice, so the chunks are not pairwise disjoint. *)
Theorem chunks_overlap :
  call_featureCollection
    <$> divideAndExportTimeSeries_calls sample_points 3 sample_images
          (Qc_of_Z 0) (Qc_of_Z 10) "NDVI" "ndvi" (Qc_of_Z 250) (Qc_of_Z 1) "eeT"
  = [ [sample_point 1 7];
      [sample_point 2 8; sample_point 3 9];
      [sample_point 3 9] ].
Proof. reflexivity. Qed.

(** ** More on [formatTable] *)

Lemma Forall2_fmap_eq {A B C} (P : A → B → Prop) (f : B → C) (g : A → C)
    (l : list A) (k : list B) :
  Forall2 P l k → (∀ x y, x ∈ l → P x y → f y = g x) → f <$> k = g <$> l.
Proof.
  induction 1 as [|x y l k Hxy _ IH]; intros Hfg; [done |].
  rewrite !fmap_cons. f_equal.
  - apply Hfg; [left | done].
  - apply IH. intros x' y' Hx'. apply Hfg. by right.
Qed.

Section formatTable_more.

Variables rowId colId bandAlias : string.
Implicit Types (r t row : Feature) (ms table wide : list Feature).

Lemma joinedRows_ids table :
  (λ jr, ee.get jr.1 rowId) <$> joinedRows table rowId
  ≡ₚ Some <$> remove_dups (point_ids rowId table).
Proof.
  apply NoDup_Permutation.
  - apply joinedRows_NoDup.
  - apply (NoDup_fmap_2 _), NoDup_remove_dups.
  - intros x. rewrite !list_elem_of_fmap. split.
    + intros ([r ms] & -> & Hin). simpl.
      apply joinedRows_inv in Hin as (Hr & _ & p & Hp & _).
      exists p. split; [done |]. rewrite elem_of_remove_dups.
      unfold point_ids. apply list_elem_of_omap. eauto.
    + intros (p & -> & Hp). rewrite elem_of_remove_dups in Hp.
      unfold point_ids in Hp. apply list_elem_of_omap in Hp as (t & Ht & Hp).
      destruct (joinedRows_point rowId table t p Ht Hp) as (r & ms & Hin & Hr & _).
      exists (r, ms). by split.
Qed.

Lemma image_ids_subseteq ms table :
  (∀ t, t ∈ ms → t ∈ table) → image_ids colId ms ⊆ image_ids colId table.
Proof.
  intros Hsub c (t & Ht & Hc)%image_ids_elem.
  apply image_ids_elem. eauto.
Qed.

(** X1: when no image is named like the row identifier, the wide table
    has one row for every point id of the triplets, and the row carries
    that id: the ids of the rows are the distinct point ids, each once. *)
Theorem formatTable_row_ids table :
  triplet_table rowId colId bandAlias table = true →
  rowId ∉ image_ids colId table →
  ∃ wide, formatTable table rowId colId bandAlias = Some wide
    ∧ (λ row, ee.get row rowId) <$> wide
      ≡ₚ Some <$> remove_dups (point_ids rowId table).
Proof.
  intros [wide Hwide]%formatTable_total Hni. exists wide. split; [done |].
  rewrite <- joinedRows_ids.
  assert (Heq : (λ row, ee.get row rowId) <$> wide
                = (λ jr, ee.get jr.1 rowId) <$> joinedRows table rowId);
    [| by rewrite Heq].
  eapply Forall2_fmap_eq; [exact (formatTable_rows _ _ _ _ _ Hwide) |].
  intros [r ms] row Hjr Hrow. simpl.
  apply (formatRow_rowId _ _ _ _ _ _ Hrow).
  intros Hc. apply Hni. eapply image_ids_subseteq; [| exact Hc].
  intros t Ht. apply joinedRows_inv in Hjr as (_ & _ & p & _ & Hms).
  by apply Hms.
Qed.

(** X2: when the triplets of a point and an image agree on their number
    (in particular when there is one triplet only), the row of the point
    holds that number, rendered with two decimals, in the column of the
    image. *)
Theorem formatTable_lookup table :
  triplet_table rowId colId bandAlias table = true →
  ∃ wide, formatTable table rowId colId bandAlias = Some wide
    ∧ Forall2 (λ '(r, _) row,
                 ∀ t c, t ∈ table →
                   ee.get t rowId = ee.get r rowId →
                   ee.get t colId = Some (VStr c) →
                   (∀ t', t' ∈ table →
                      ee.get t' rowId = ee.get t rowId →
                      ee.get t' colId = Some (VStr c) →
                      sampled_value bandAlias t' = sampled_value bandAlias t) →
                   ee.get row c
                   = Some (VStr (ee.format_2f (sampled_value bandAlias t))))
              (joinedRows table rowId) wide.
Proof.
  intros [wide Hwide]%formatTable_total. exists wide. split; [done |].
  eapply Forall2_impl_elem; [exact (formatTable_rows _ _ _ _ _ Hwide) |].
  intros [r ms] row Hjr Hfr t c Ht Hid Hc Hagree.
  apply joinedRows_inv in Hjr as (_ & _ & p & Hp & Hms).
  rewrite Hp in Hid.
  assert (Htms : t ∈ ms) by by apply Hms.
  destruct (formatRow_column _ _ _ _ _ _ _ _ Hfr Htms Hc) as (t' & Ht' & Hc' & ->).
  apply Hms in Ht' as [Ht' Hp']. do 3 f_equal. apply Hagree; congruence.
Qed.

(** X3: a point that has no triplet for an image gets no cell in the
    column of that image: the pivot does not fill the table up. *)
Theorem formatTable_no_cell table :
  triplet_table rowId colId bandAlias table = true →
  ∃ wide, formatTable table rowId colId bandAlias = Some wide
    ∧ Forall2 (λ '(r, _) row,
                 ∀ p c, ee.get r rowId = Some p → c ≠ rowId →
                        ¬ has_pair rowId colId table p c →
                        ee.get row c = None)
              (joinedRows table rowId) wide.
Proof.
  intros [wide Hwide]%formatTable_total. exists wide. split; [done |].
  eapply Forall2_impl_elem; [exact (formatTable_rows _ _ _ _ _ Hwide) |].
  intros [r ms] row Hjr Hfr p c Hp Hc Hno.
  apply joinedRows_inv in Hjr as (_ & _ & p' & Hp' & Hms).
  assert (p' = p) as -> by congruence.
  destruct (ee.get row c) as [v|] eqn:Hv; [| done].
  destruct (formatRow_cell _ _ _ _ _ _ _ _ Hfr Hv) as [[-> _] | (t & Ht & Htc & _)];
    [done |].
  exfalso. apply Hno. exists t. apply Hms in Ht as [? ?]. eauto.
Qed.

Lemma formatCell_is_Some t :
  is_Some (formatCell colId bandAlias t) →
  is_Some (ee.get t rowId) →
  is_triplet rowId colId bandAlias t = true.
Proof.
  unfold is_triplet, formatCell. simpl. intros Hcell [p ->].
  destruct (ee.get t colId) as [[q|s]|]; try by destruct Hcell.
  destruct (ee.get t bandAlias) as [[q|s']|]; simpl in *; try done.
Qed.

(** X4: on a table whose features all have the row identifier, the pivot
    is evaluated without error exactly when every feature is a triplet:
    its column id is a string and its band value a number or [null]. *)
Theorem formatTable_succeeds_iff table :
  Forall (λ t, is_Some (ee.get t rowId)) table →
  is_Some (formatTable table rowId colId bandAlias)
  ↔ triplet_table rowId colId bandAlias table = true.
Proof.
  intros Hids. split; [| apply formatTable_total].
  intros [wide Hwide]. unfold triplet_table. apply forallb_forall.
  intros t Ht%list_elem_of_In.
  rewrite list.Forall_forall in Hids. pose proof (Hids t Ht) as [p Hp].
  destruct (joinedRows_point rowId table t p Ht Hp) as (r & ms & Hjr & _ & Htms).
  destruct (mapM_elem_l _ _ _ _ Hwide Hjr) as (row & _ & Hfr).
  apply formatRow_properties in Hfr as (values & Hm & _).
  destruct (mapM_elem_l _ _ _ _ Hm Htms) as (kv & _ & Hcell).
  apply formatCell_is_Some; [by eexists | by eexists].
Qed.

End formatTable_more.

Lemma formatTable_row_ids_witness :
  ∃ wide, formatTable sample_table "id" "imageId" "ndvi" = Some wide
    ∧ (λ row, ee.get row "id") <$> wide
      ≡ₚ Some <$> remove_dups (point_ids "id" sample_table).
Proof.
  apply formatTable_row_ids; [reflexivity |].
  intros (t & Ht & Hc)%image_ids_elem. unfold sample_table in Ht.
  rewrite !elem_of_cons, elem_of_nil in Ht.
  destruct Ht as [-> | [-> | [-> | [-> | []]]]]; vm_compute in Hc; congruence.
Defined.

Lemma formatTable_lookup_witness :
  ∃ wide, formatTable sample_table "id" "imageId" "ndvi" = Some wide
    ∧ Forall2 (λ '(r, _) row,
                 ∀ t c, t ∈ sample_table →
                   ee.get t "id" = ee.get r "id" →
                   ee.get t "imageId" = Some (VStr c) →
                   (∀ t', t' ∈ sample_table →
                      ee.get t' "id" = ee.get t "id" →
                      ee.get t' "imageId" = Some (VStr c) →
                      sampled_value "ndvi" t' = sampled_value "ndvi" t) →
                   ee.get row c
                   = Some (VStr (ee.format_2f (sampled_value "ndvi" t))))
              (joinedRows sample_table "id") wide.
Proof. apply formatTable_lookup. reflexivity. Defined.

Lemma formatTable_no_cell_witness :
  ∃ wide, formatTable sparse_table "id" "imageId" "ndvi" = Some wide
    ∧ Forall2 (λ '(r, _) row,
                 ∀ p c, ee.get r "id" = Some p → c ≠ "id" →
                        ¬ has_pair "id" "imageId" sparse_table p c →
                        ee.get row c = None)
              (joinedRows sparse_table "id") wide.
Proof. apply formatTable_no_cell. reflexivity. Defined.

Lemma formatTable_succeeds_iff_witness :
  is_Some (formatTable sample_table "id" "imageId" "ndvi")
  ↔ triplet_table "id" "imageId" "ndvi" sample_table = true.
Proof.
  apply formatTable_succeeds_iff.
  repeat constructor; by eexists.
Defined.

(** ** More on the long-format table *)

Section tripletTable_more.

Variable retained : string → bool.
Variable product : Qc → Qc → Qc.
Implicit Types (featureCollection table : list Feature) (image : Image).
Implicit Types (imageCollection : list Image).

Lemma sampleImage_spec featureCollection bandAlias scale image :
  sampleImage featureCollection bandAlias scale image
  = match image_bands image with
    | [(_, r)] =>
        Some (sampleFeature bandAlias scale (image_id image) r
                <$> featureCollection)
    | _ => None
    end.
Proof.
  unfold sampleImage, ee.reduceRegions.
  destruct (image_bands image) as [|[n r] [|? ?]]; simpl; try done.
  f_equal. rewrite List.map_map. done.
Qed.

Lemma has_band_filter band image :
  has_band band image ↔
  ∃ r, filter (λ b, b.1 = band) (image_bands image) = [(band, r)].
Proof.
  unfold has_band. split.
  - destruct (filter _ (image_bands image)) as [|[n r] [|? ?]] eqn:Hf;
      simpl; try done.
    intros _. exists r.
    assert (Hin : (n, r) ∈ filter (λ b, b.1 = band) (image_bands image))
      by (rewrite Hf; left).
    apply list_elem_of_filter in Hin as [Hn _]. simpl in Hn. by subst n.
  - by intros [r ->].
Qed.

(** One image through [select], the scaling and the sampling. *)
Lemma select_sample_Some featureCollection band bandAlias scale multiplier
    image selected (L : list Feature) :
  ee.Image_select band image = Some selected →
  sampleImage featureCollection bandAlias scale
    (scaleImage retained product multiplier selected) = Some L →
  ∃ r, filter (λ b, b.1 = band) (image_bands image) = [(band, r)]
       ∧ L = sampleFeature bandAlias scale (image_id image)
               (scaledRaster product multiplier r) <$> featureCollection.
Proof.
  unfold ee.Image_select. intros Hsel. rewrite sampleImage_spec.
  destruct (filter _ (image_bands image)) as [|[n r] bs] eqn:Hf; [done |].
  injection Hsel as <-. simpl.
  destruct bs as [|? ?]; simpl; [| done].
  intros [= <-].
  assert (Hin : (n, r) ∈ filter (λ b, b.1 = band) (image_bands image))
    by (rewrite Hf; left).
  apply list_elem_of_filter in Hin as [Hn _]. simpl in Hn. subst n.
  by exists r.
Qed.

Lemma select_sample_has_band featureCollection band bandAlias scale multiplier
    image :
  has_band band image →
  ∃ selected,
    ee.Image_select band image = Some selected
    ∧ is_Some (sampleImage featureCollection bandAlias scale
                 (scaleImage retained product multiplier selected)).
Proof.
  intros [r Hf]%has_band_filter. unfold ee.Image_select. rewrite Hf.
  eexists. split; [done |]. rewrite sampleImage_spec. simpl. eauto.
Qed.

(** The table as a function of the inputs: one list of sampled points per
    image of the date range. *)
Lemma tripletTable_spec imageCollection featureCollection
    (startDate endDate : Qc) (band bandAlias : string)
    (scale multiplier : Qc) table :
  tripletTable retained product imageCollection featureCollection startDate endDate
    band bandAlias scale multiplier = Some table →
  ∃ Ls, table = mjoin Ls
    ∧ Forall2 (λ image L,
                 ∃ r, filter (λ b, b.1 = band) (image_bands image) = [(band, r)]
                      ∧ L = sampleFeature bandAlias scale (image_id image)
                              (scaledRaster product multiplier r) <$> featureCollection)
              (ee.filterDate startDate endDate imageCollection) Ls.
Proof.
  unfold tripletTable, filtered, triplets, scaledBand.
  destruct (mapM _ (ee.filterDate _ _ _)) as [fl|] eqn:Hfl; simpl; [| done].
  intros (Ls & Hm & ->)%fmap_Some. exists Ls. split; [done |].
  apply mapM_Some_1 in Hfl. apply mapM_Some_1 in Hm.
  revert Ls Hm. induction Hfl as [|image selected l fl Hsel _ IH];
    intros Ls Hm.
  - apply Forall2_nil_inv_l in Hm as ->. constructor.
  - simpl in Hm. apply Forall2_cons_inv_l in Hm as (L & Ls' & HL & Hm & ->).
    constructor; [| by apply IH].
    by eapply select_sample_Some.
Qed.

Lemma tripletTable_elem imageCollection featureCollection
    (startDate endDate : Qc) (band bandAlias : string)
    (scale multiplier : Qc) table t :
  tripletTable retained product imageCollection featureCollection startDate endDate
    band bandAlias scale multiplier = Some table →
  t ∈ table ↔
  ∃ image r f,
    image ∈ ee.filterDate startDate endDate imageCollection
    ∧ filter (λ b, b.1 = band) (image_bands image) = [(band, r)]
    ∧ f ∈ featureCollection
    ∧ t = sampleFeature bandAlias scale (image_id image)
            (scaledRaster product multiplier r) f.
Proof.
  intros (Ls & -> & HLs)%tripletTable_spec.
  induction HLs as [|image L l Ls (r & Hr & ->) _ IH]; simpl.
  - split; [by intros ?%elem_of_nil |].
    by intros (? & ? & ? & ?%elem_of_nil & _).
  - rewrite elem_of_app, IH, list_elem_of_fmap. split.
    + intros [(f & -> & Hf) | (image' & r' & f & Hin & ? & ? & ?)].
      * exists image, r, f. split; [left | done].
      * exists image', r', f. split; [by right | done].
    + intros (image' & r' & f & Hin & Hr' & Hf & ->).
      apply elem_of_cons in Hin as [-> | Hin].
      * left. exists f. split; [| done]. rewrite Hr in Hr'. by injection Hr' as ->.
      * right. eauto 10.
Qed.

(** X5: the long-format table has one triplet for every image of the
    date range and every point, whether the pixel is masked or not. *)
Theorem tripletTable_size imageCollection featureCollection
    (startDate endDate : Qc) (band bandAlias : string)
    (scale multiplier : Qc) table :
  tripletTable retained product imageCollection featureCollection startDate endDate
    band bandAlias scale multiplier = Some table →
  length table
  = (length (ee.filterDate startDate endDate imageCollection)
     * length featureCollection)%nat.
Proof.
  intros (Ls & -> & HLs)%tripletTable_spec.
  induction HLs as [|image L l Ls (r & _ & ->) _ IH]; [done |].
  simpl. rewrite List.length_app, length_fmap, IH. done.
Qed.

(** X6: every triplet carries the id of an image of the collection whose
    [system:time_start] is a number [ts] with [startDate ≤ ts < endDate];
    an image outside the range, or without a start time, leaves no
    triplet. *)
Theorem tripletTable_in_range imageCollection featureCollection
    (startDate endDate : Qc) (band bandAlias : string)
    (scale multiplier : Qc) table :
  tripletTable retained product imageCollection featureCollection startDate endDate
    band bandAlias scale multiplier = Some table →
  ∀ t, t ∈ table →
    ∃ image ts,
      image ∈ imageCollection
      ∧ ee.get t "imageId" = Some (VStr (image_id image))
      ∧ image_properties image !! "system:time_start" = Some (VNum ts)
      ∧ (startDate ≤ ts)%Qc ∧ (ts < endDate)%Qc.
Proof.
  intros Htable t Ht.
  apply (tripletTable_elem _ _ _ _ _ _ _ _ _ _ Htable) in Ht
    as (image & r & f & Hin & _ & _ & ->).
  unfold ee.filterDate in Hin. apply list_elem_of_filter in Hin as [Hrange Hin].
  unfold ee.in_range in Hrange.
  destruct (image_properties image !! "system:time_start") as [[ts|?]|] eqn:Hts;
    try done.
  apply andb_true_iff in Hrange as [H1%bool_decide_eq_true H2%bool_decide_eq_true].
  exists image, ts. split; [done |]. split; [| done].
  unfold sampleFeature, ee.get, ee.set. simpl. apply lookup_insert_eq.
Qed.

Lemma tripletTable_has_band imageCollection featureCollection
    (startDate endDate : Qc) (band bandAlias : string)
    (scale multiplier : Qc) table :
  tripletTable retained product imageCollection featureCollection startDate endDate
    band bandAlias scale multiplier = Some table →
  Forall (has_band band) (ee.filterDate startDate endDate imageCollection).
Proof.
  intros (Ls & _ & HLs)%tripletTable_spec.
  induction HLs as [|image L l Ls (r & Hr & _) _ IH]; constructor; [| done].
  apply has_band_filter. eauto.
Qed.

Lemma tripletTable_total imageCollection featureCollection
    (startDate endDate : Qc) (band bandAlias : string)
    (scale multiplier : Qc) :
  Forall (has_band band) (ee.filterDate startDate endDate imageCollection) →
  is_Some (tripletTable retained product imageCollection featureCollection
             startDate endDate band bandAlias scale multiplier).
Proof.
  unfold tripletTable, filtered, triplets, scaledBand.
  generalize (ee.filterDate startDate endDate imageCollection). intros l Hl.
  induction Hl as [|image l Himage _ IH]; [by eexists |].
  destruct (select_sample_has_band featureCollection band bandAlias scale
              multiplier image Himage) as (selected & Hsel & [L HL]).
  simpl. rewrite Hsel. simpl.
  destruct (mapM (ee.Image_select band) l) as [fl|]; simpl in *;
    [| by destruct IH].
  rewrite HL. simpl.
  destruct (mapM _ (map _ fl)) as [Ls|]; simpl in *; [by eexists |].
  by destruct IH.
Qed.

(** X7: the sampling is evaluated without error exactly when every image
    of the date range has the band; an image outside the range may lack
    it. *)
Theorem tripletTable_succeeds_iff imageCollection featureCollection
    (startDate endDate : Qc) (band bandAlias : string)
    (scale multiplier : Qc) :
  is_Some (tripletTable retained product imageCollection featureCollection
             startDate endDate band bandAlias scale multiplier)
  ↔ Forall (has_band band) (ee.filterDate startDate endDate imageCollection).
Proof.
  split.
  - intros [table Htable]. by eapply tripletTable_has_band.
  - apply tripletTable_total.
Qed.

End tripletTable_more.

Lemma tripletTable_size_witness :
  length (default [] (tripletTable (λ _, false) exact_product sample_images sample_points
                        (Qc_of_Z 0) (Qc_of_Z 10) "NDVI" "ndvi" (Qc_of_Z 250)
                        (Q2Qc (1 # 4))))
  = (length (ee.filterDate (Qc_of_Z 0) (Qc_of_Z 10) sample_images)
     * length sample_points)%nat.
Proof.
  apply (tripletTable_size (λ _, false) exact_product sample_images sample_points
           (Qc_of_Z 0) (Qc_of_Z 10) "NDVI" "ndvi" (Qc_of_Z 250)
           (Q2Qc (1 # 4))).
  reflexivity.
Defined.

Lemma tripletTable_in_range_witness :
  ∃ image ts,
    image ∈ sample_images
    ∧ ee.get (sampleFeature "ndvi" (Qc_of_Z 250) "i1"
                (scaledRaster exact_product (Q2Qc (1 # 4)) (λ _ _, Some (Qc_of_Z 7)))
                (sample_point 1 7)) "imageId"
      = Some (VStr (image_id image))
    ∧ image_properties image !! "system:time_start" = Some (VNum ts)
    ∧ (Qc_of_Z 0 ≤ ts)%Qc ∧ (ts < Qc_of_Z 10)%Qc.
Proof.
  eapply (tripletTable_in_range (λ _, false) exact_product sample_images sample_points
            (Qc_of_Z 0) (Qc_of_Z 10) "NDVI" "ndvi" (Qc_of_Z 250)
            (Q2Qc (1 # 4)) _ eq_refl).
  apply (list_elem_of_lookup_2 _ 0%nat). reflexivity.
Defined.

(** ** [exportTimeSeries] from end to end *)

Section keyed_lists.

Context {A B : Type}.

Lemma NoDup_fmap_elem_inj (h : A → B) (l : list A) (x y : A) :
  NoDup (h <$> l) → x ∈ l → y ∈ l → h x = h y → x = y.
Proof.
  induction l as [|z l IH]; [by intros _ ?%elem_of_nil |].
  rewrite fmap_cons, list.NoDup_cons, !elem_of_cons.
  intros [Hz Hl] [-> | Hx] [-> | Hy] Heq; try done.
  - exfalso. apply Hz. rewrite Heq. by apply list_elem_of_fmap_2.
  - exfalso. apply Hz. rewrite <- Heq. by apply list_elem_of_fmap_2.
  - by apply IH.
Qed.

Lemma NoDup_omap_elem_inj (h : A → option B) (l : list A) (x y : A) (p : B) :
  NoDup (omap h l) → x ∈ l → y ∈ l → h x = Some p → h y = Some p → x = y.
Proof.
  induction l as [|z l IH]; [by intros _ ?%elem_of_nil |].
  change (omap h (z :: l))
    with (match h z with Some v => v :: omap h l | None => omap h l end).
  rewrite !elem_of_cons. intros Hnd [-> | Hx] [-> | Hy] Hpx Hpy; try done.
  - exfalso. rewrite Hpx in Hnd. apply list.NoDup_cons in Hnd as [Hz _].
    apply Hz, list_elem_of_omap. eauto.
  - exfalso. rewrite Hpy in Hnd. apply list.NoDup_cons in Hnd as [Hz _].
    apply Hz, list_elem_of_omap. eauto.
  - apply IH; try done.
    destruct (h z); [by apply list.NoDup_cons in Hnd as [_ ?] | done].
Qed.

End keyed_lists.

Section sampleFeature_facts.

Variables (bandAlias : string) (scale : Qc) (imageId : string) (r : Raster).
Implicit Types f : Feature.

Lemma sampleFeature_id f :
  bandAlias ≠ "id" →
  ee.get (sampleFeature bandAlias scale imageId r f) "id" = ee.get f "id".
Proof.
  intros Ha. unfold sampleFeature, ee.get, ee.set. simpl.
  rewrite lookup_insert_ne by done.
  destruct (r scale (geometry f)); simpl.
  - by rewrite lookup_insert_ne.
  - by rewrite lookup_delete_ne.
Qed.

Lemma sampleFeature_imageId f :
  ee.get (sampleFeature bandAlias scale imageId r f) "imageId"
  = Some (VStr imageId).
Proof. unfold sampleFeature, ee.get, ee.set. simpl. apply lookup_insert_eq. Qed.

Lemma sampleFeature_value f :
  bandAlias ≠ "imageId" →
  ee.get (sampleFeature bandAlias scale imageId r f) bandAlias
  = VNum <$> r scale (geometry f).
Proof.
  intros Ha. unfold sampleFeature, ee.get, ee.set. simpl.
  rewrite lookup_insert_ne by done.
  destruct (r scale (geometry f)); simpl.
  - by rewrite lookup_insert_eq.
  - by rewrite lookup_delete_eq.
Qed.

Lemma sampleFeature_geometry f :
  geometry (sampleFeature bandAlias scale imageId r f) = geometry f.
Proof. unfold sampleFeature, ee.set. simpl. by destruct (r scale (geometry f)). Qed.

Lemma sampleFeature_triplet f :
  bandAlias ≠ "id" → bandAlias ≠ "imageId" → is_Some (ee.get f "id") →
  is_triplet "id" "imageId" bandAlias (sampleFeature bandAlias scale imageId r f)
  = true.
Proof.
  intros Ha1 Ha2 [p Hp]. unfold is_triplet.
  rewrite sampleFeature_id, sampleFeature_imageId, sampleFeature_value, Hp by done.
  by destruct (r scale (geometry f)).
Qed.

Lemma sampleFeature_sampled_value f :
  bandAlias ≠ "imageId" →
  sampled_value bandAlias (sampleFeature bandAlias scale imageId r f)
  = default sentinel (r scale (geometry f)).
Proof.
  intros Ha. unfold sampled_value. rewrite sampleFeature_value by done.
  by destruct (r scale (geometry f)).
Qed.

End sampleFeature_facts.

Lemma formatRow_geometry rowId colId bandAlias (r : Feature)
    (ms : list Feature) (row : Feature) :
  formatRow rowId colId bandAlias (r, ms) = Some row →
  geometry row = geometry r.
Proof.
  unfold formatRow. destruct (mapM _ ms); simpl; [| done]. by intros [= <-].
Qed.

Lemma has_band_raster band (image : Image) (r r' : Raster) :
  filter (λ b, b.1 = band) (image_bands image) = [(band, r)] →
  (band, r') ∈ image_bands image → r' = r.
Proof.
  intros Hf Hin.
  assert (Hin' : (band, r') ∈ filter (λ b, b.1 = band) (image_bands image))
    by (by apply list_elem_of_filter).
  rewrite Hf in Hin'. apply list_elem_of_singleton in Hin'. by injection Hin'.
Qed.

Lemma Forall2_mjoin_nil {A B} (R : A → list B → Prop) (l : list A)
    (Ls : list (list B)) :
  Forall2 R l Ls → (∀ x L, R x L → L = []) → mjoin Ls = [].
Proof.
  induction 1 as [|x L l Ls HL _ IH]; intros HR; [done |].
  simpl. by rewrite (HR x L HL), IH.
Qed.

Section exportTimeSeries_more.

Variable retained : string → bool.
Variable product : Qc → Qc → Qc.
Implicit Types (featureCollection table wide : list Feature).
Implicit Types (imageCollection : list Image).

Lemma exportTimeSeries_events imageCollection featureCollection
    (startDate endDate : Qc) (band bandAlias : string) (scale multiplier : Qc)
    (outputFolder fileNamePrefix : string) table
    (result : option (list Feature)) :
  tripletTable retained product imageCollection featureCollection startDate endDate
    band bandAlias scale multiplier = Some table →
  formatTable table "id" "imageId" bandAlias = result →
  exportTimeSeries retained product imageCollection featureCollection startDate endDate
    band bandAlias scale multiplier outputFolder fileNamePrefix
  = [ PrintFirst (head <$> result);
      ExportTable (mkExportTask result fileNamePrefix outputFolder
                     fileNamePrefix "CSV") ].
Proof. unfold exportTimeSeries. intros -> <-. done. Qed.

Lemma tripletTable_triplets imageCollection featureCollection
    (startDate endDate : Qc) (band bandAlias : string) (scale multiplier : Qc)
    table :
  Forall (λ f, is_Some (ee.get f "id")) featureCollection →
  bandAlias ≠ "id" → bandAlias ≠ "imageId" →
  tripletTable retained product imageCollection featureCollection startDate endDate
    band bandAlias scale multiplier = Some table →
  triplet_table "id" "imageId" bandAlias table = true.
Proof.
  intros Hids Ha1 Ha2 Htable. rewrite list.Forall_forall in Hids.
  unfold triplet_table. apply forallb_forall. intros t Ht%list_elem_of_In.
  apply (tripletTable_elem retained product _ _ _ _ _ _ _ _ _ _ Htable) in Ht
    as (image & r & f & _ & _ & Hf & ->).
  apply sampleFeature_triplet; auto.
Qed.

(** X8: when the points have distinct ids, the images distinct ids other
    than [id], every image of the date range has the band, and the band
    alias is neither [id] nor [imageId], the request exports a table in
    which, for every point and every image of the date range, the row
    with the id and the geometry of the point has a cell in the column
    of the image: the sentinel where the pixel under the point is masked
    and otherwise the two-decimal rendering of what the platform's
    multiplication makes of that pixel and the multiplier. *)
Theorem exportTimeSeries_cells imageCollection featureCollection
    (startDate endDate : Qc) (band bandAlias : string) (scale multiplier : Qc)
    (outputFolder fileNamePrefix : string) :
  Forall (λ f, is_Some (ee.get f "id")) featureCollection →
  NoDup (point_ids "id" featureCollection) →
  NoDup (image_id <$> imageCollection) →
  Forall (λ image, has_band band image ∧ image_id image ≠ "id")
         (ee.filterDate startDate endDate imageCollection) →
  bandAlias ≠ "id" → bandAlias ≠ "imageId" →
  ∃ wide,
    exportTimeSeries retained product imageCollection featureCollection startDate
      endDate band bandAlias scale multiplier outputFolder fileNamePrefix
    = [ PrintFirst (Some (head wide));
        ExportTable (mkExportTask (Some wide) fileNamePrefix outputFolder
                       fileNamePrefix "CSV") ]
    ∧ ∀ f image r,
        f ∈ featureCollection →
        image ∈ ee.filterDate startDate endDate imageCollection →
        (band, r) ∈ image_bands image →
        ∃ row, row ∈ wide
          ∧ ee.get row "id" = ee.get f "id"
          ∧ geometry row = geometry f
          ∧ ee.get row (image_id image)
            = Some (VStr (ee.format_2f
                            (default sentinel
                               ((λ v, product v multiplier)
                                  <$> r scale (geometry f))))).
Proof.
  intros Hids Hpts Himgs Hrange Ha1 Ha2.
  set (FD := ee.filterDate startDate endDate imageCollection) in *.
  assert (Hband : Forall (has_band band) FD).
  { eapply list.Forall_impl; [exact Hrange |]. by intros ? [? _]. }
  assert (Hname : ∀ image, image ∈ FD → image_id image ≠ "id").
  { rewrite list.Forall_forall in Hrange. intros image Hin. by apply Hrange. }
  assert (HFD : NoDup (image_id <$> FD)).
  { eapply sublist_NoDup; [exact Himgs |]. apply fmap_sublist, sublist_filter. }
  destruct (tripletTable_total retained product imageCollection featureCollection
              startDate endDate band bandAlias scale multiplier Hband)
    as [table Htable].
  pose proof (λ t, tripletTable_elem retained product _ _ _ _ _ _ _ _ _ t Htable) as Helem.
  pose proof (tripletTable_triplets _ _ _ _ _ _ _ _ _ Hids Ha1 Ha2 Htable)
    as Htt.
  rewrite list.Forall_forall in Hids.
  destruct (formatTable_total _ _ _ _ Htt) as [wide Hwide].
  exists wide. split.
  { by rewrite (exportTimeSeries_events _ _ _ _ _ _ _ _ _ _ _ _ Htable Hwide). }
  intros f image r Hf Himage Hr.
  rewrite list.Forall_forall in Hband.
  destruct (proj1 (has_band_filter band image) (Hband image Himage))
    as [r0 Hr0].
  assert (r = r0) as -> by by eapply has_band_raster.
  destruct (Hids f Hf) as [p Hp].
  set (t := sampleFeature bandAlias scale (image_id image)
              (scaledRaster product multiplier r0) f).
  assert (Ht : t ∈ table) by (apply Helem; eauto 10).
  assert (Htp : ee.get t "id" = Some p)
    by (unfold t; by rewrite sampleFeature_id).
  destruct (joinedRows_point "id" table t p Ht Htp) as (r1 & ms & Hjr & Hr1 & Htms).
  destruct (mapM_elem_l _ _ _ _ Hwide Hjr) as (row & Hrow & Hfr).
  apply joinedRows_inv in Hjr as (Hr1t & _ & p' & Hp' & Hms).
  assert (p' = p) as -> by congruence.
  (* every triplet of point [p] comes from [f] *)
  assert (Hsame : ∀ t', t' ∈ table → ee.get t' "id" = Some p →
            ∃ image' r', image' ∈ FD
              ∧ filter (λ b, b.1 = band) (image_bands image') = [(band, r')]
              ∧ t' = sampleFeature bandAlias scale (image_id image')
                       (scaledRaster product multiplier r') f).
  { intros t' (image' & r' & f' & Hin' & Hr' & Hf' & ->)%Helem Hid'.
    rewrite sampleFeature_id in Hid' by done.
    assert (f' = f) as -> by by eapply (NoDup_omap_elem_inj _ _ _ _ _ Hpts).
    eauto. }
  exists row. split; [done |]. split; [| split].
  - rewrite Hp, <- Hr1. apply (formatRow_rowId _ _ _ _ _ _ Hfr).
    intros (t' & [Ht' Hid']%Hms & Hc)%image_ids_elem.
    destruct (Hsame t' Ht' Hid') as (image' & r' & Hin' & _ & ->).
    rewrite sampleFeature_imageId in Hc. injection Hc as Hc.
    by apply (Hname image' Hin').
  - rewrite (formatRow_geometry _ _ _ _ _ _ Hfr).
    destruct (Hsame r1 Hr1t Hr1) as (image' & r' & _ & _ & ->).
    apply sampleFeature_geometry.
  - destruct (formatRow_column _ _ _ _ _ _ _ _ Hfr Htms
                (sampleFeature_imageId _ _ _ _ _))
      as (t' & [Ht' Hid']%Hms & Hc & ->).
    destruct (Hsame t' Ht' Hid') as (image' & r' & Hin' & Hr' & ->).
    rewrite sampleFeature_imageId in Hc. injection Hc as Hc.
    assert (image' = image) as ->
      by by eapply (NoDup_fmap_elem_inj image_id FD).
    assert (r' = r0) as -> by congruence.
    by rewrite sampleFeature_sampled_value.
Qed.

(** X9: with the band alias [imageId] the image id overwrites the sample,
    the pivot is asked to format a string as a number, and the export
    task gets no table as soon as one image is in the date range and one
    point has an id. *)
Theorem exportTimeSeries_alias_imageId imageCollection featureCollection
    (startDate endDate : Qc) (band : string) (scale multiplier : Qc)
    (outputFolder fileNamePrefix : string) image f :
  image ∈ ee.filterDate startDate endDate imageCollection →
  f ∈ featureCollection → is_Some (ee.get f "id") →
  exported_tables
    (exportTimeSeries retained product imageCollection featureCollection startDate
       endDate band "imageId" scale multiplier outputFolder fileNamePrefix)
  = [None].
Proof.
  intros Himage Hf [p Hp]. unfold exportTimeSeries.
  destruct (tripletTable _ _ _ _ _ _ _ _ _) as [table|] eqn:Htable;
    [| reflexivity].
  simpl.
  pose proof (tripletTable_has_band retained product _ _ _ _ _ _ _ _ _ Htable) as Hband.
  rewrite list.Forall_forall in Hband.
  destruct (proj1 (has_band_filter band image) (Hband image Himage)) as [r Hr].
  set (t := sampleFeature "imageId" scale (image_id image)
              (scaledRaster product multiplier r) f).
  assert (Ht : t ∈ table).
  { apply (tripletTable_elem retained product _ _ _ _ _ _ _ _ _ _ Htable). eauto 10. }
  assert (Htp : ee.get t "id" = Some p)
    by (unfold t; by rewrite sampleFeature_id).
  destruct (joinedRows_point "id" table t p Ht Htp) as (r1 & ms & Hjr & _ & Htms).
  assert (Hnone : formatTable table "id" "imageId" "imageId" = None);
    [| by rewrite Hnone].
  apply mapM_None_2, list.Exists_exists. exists (r1, ms). split; [done |].
  unfold formatRow.
  assert (Hcells : mapM (formatCell "imageId" "imageId") ms = None);
    [| by rewrite Hcells].
  apply mapM_None_2, list.Exists_exists. exists t. split; [done |].
  unfold formatCell. simpl. unfold t. by rewrite sampleFeature_imageId.
Qed.

(** X10: when no image is in the date range, or there is no point and
    the sampling is evaluated without error, the request exports an
    empty table and prints [null]; it is not an error. *)
Theorem exportTimeSeries_empty imageCollection featureCollection
    (startDate endDate : Qc) (band bandAlias : string) (scale multiplier : Qc)
    (outputFolder fileNamePrefix : string) :
  ee.filterDate startDate endDate imageCollection = []
  ∨ (featureCollection = []
     ∧ Forall (has_band band) (ee.filterDate startDate endDate imageCollection)) →
  exportTimeSeries retained product imageCollection featureCollection startDate
    endDate band bandAlias scale multiplier outputFolder fileNamePrefix
  = [ PrintFirst (Some None);
      ExportTable (mkExportTask (Some []) fileNamePrefix outputFolder
                     fileNamePrefix "CSV") ].
Proof.
  intros Hempty.
  assert (Hband : Forall (has_band band)
                    (ee.filterDate startDate endDate imageCollection)).
  { destruct Hempty as [-> | [_ ?]]; [constructor | done]. }
  destruct (tripletTable_total retained product imageCollection featureCollection
              startDate endDate band bandAlias scale multiplier Hband)
    as [table Htable].
  assert (table = []) as ->.
  { pose proof (tripletTable_spec retained product _ _ _ _ _ _ _ _ _ Htable)
      as (Ls & -> & HLs).
    destruct Hempty as [Hnil | [-> _]].
    - rewrite Hnil in HLs. by apply Forall2_nil_inv_l in HLs as ->.
    - eapply Forall2_mjoin_nil; [exact HLs |]. by intros ? ? (r & _ & ->). }
  by rewrite (exportTimeSeries_events _ _ _ _ _ _ _ _ _ _ _ _ Htable eq_refl).
Qed.

(** The exported table has one row for every distinct point id. *)
Lemma exportTimeSeries_distinct_rows imageCollection featureCollection
    (startDate endDate : Qc) (band bandAlias : string) (scale multiplier : Qc)
    (outputFolder fileNamePrefix : string) :
  Forall (λ f, is_Some (ee.get f "id")) featureCollection →
  Forall (has_band band) (ee.filterDate startDate endDate imageCollection) →
  ee.filterDate startDate endDate imageCollection ≠ [] →
  bandAlias ≠ "id" → bandAlias ≠ "imageId" →
  ∃ wide,
    exported_tables
      (exportTimeSeries retained product imageCollection featureCollection startDate
         endDate band bandAlias scale multiplier outputFolder fileNamePrefix)
    = [Some wide]
    ∧ length wide = length (remove_dups (point_ids "id" featureCollection)).
Proof.
  intros Hids Hband Hne Ha1 Ha2.
  destruct (tripletTable_total retained product imageCollection featureCollection
              startDate endDate band bandAlias scale multiplier Hband)
    as [table Htable].
  pose proof (tripletTable_triplets _ _ _ _ _ _ _ _ _ Hids Ha1 Ha2 Htable)
    as Htt.
  destruct (formatTable_total _ _ _ _ Htt) as [wide Hwide].
  exists wide. split.
  { by rewrite (exportTimeSeries_events _ _ _ _ _ _ _ _ _ _ _ _ Htable Hwide). }
  rewrite (formatTable_length _ _ _ _ _ Hwide).
  apply Permutation_length, NoDup_Permutation; try apply NoDup_remove_dups.
  intros p. rewrite !elem_of_remove_dups. unfold point_ids.
  rewrite !list_elem_of_omap. split.
  - intros (t & Ht & Hp).
    apply (tripletTable_elem retained product _ _ _ _ _ _ _ _ _ _ Htable) in Ht
      as (image & r & f & _ & _ & Hf & ->).
    rewrite sampleFeature_id in Hp by done. eauto.
  - intros (f & Hf & Hp).
    destruct (ee.filterDate startDate endDate imageCollection)
      as [|image l] eqn:HFD; [done |].
    apply list.Forall_cons in Hband as [[r Hr]%has_band_filter _].
    exists (sampleFeature bandAlias scale (image_id image)
              (scaledRaster product multiplier r) f).
    split; [| by rewrite sampleFeature_id].
    apply (tripletTable_elem retained product _ _ _ _ _ _ _ _ _ _ Htable).
    exists image, r, f. rewrite HFD. split; [left | done].
Qed.

Lemma point_ids_length (featureCollection : list Feature) :
  Forall (λ f, is_Some (ee.get f "id")) featureCollection →
  length (point_ids "id" featureCollection) = length featureCollection.
Proof.
  unfold point_ids. induction 1 as [|f l [p Hp] _ IH]; [done |].
  change (omap (λ t, ee.get t "id") (f :: l))
    with (match ee.get f "id" with
          | Some v => v :: omap (λ t, ee.get t "id") l
          | None => omap (λ t, ee.get t "id") l
          end).
  rewrite Hp. simpl. by rewrite IH.
Qed.

(** X15: when the points have distinct ids, an image is in the date
    range, every image of the range has the band and the band alias is
    neither [id] nor [imageId], the exported table has exactly one row
    per point. *)
Theorem exportTimeSeries_row_count imageCollection featureCollection
    (startDate endDate : Qc) (band bandAlias : string) (scale multiplier : Qc)
    (outputFolder fileNamePrefix : string) :
  Forall (λ f, is_Some (ee.get f "id")) featureCollection →
  NoDup (point_ids "id" featureCollection) →
  Forall (has_band band) (ee.filterDate startDate endDate imageCollection) →
  ee.filterDate startDate endDate imageCollection ≠ [] →
  bandAlias ≠ "id" → bandAlias ≠ "imageId" →
  ∃ wide,
    exported_tables
      (exportTimeSeries retained product imageCollection featureCollection
         startDate endDate band bandAlias scale multiplier outputFolder
         fileNamePrefix)
    = [Some wide]
    ∧ length wide = length featureCollection.
Proof.
  intros Hids Hnd Hband Hne Ha1 Ha2.
  destruct (exportTimeSeries_distinct_rows imageCollection featureCollection
              startDate endDate band bandAlias scale multiplier outputFolder
              fileNamePrefix Hids Hband Hne Ha1 Ha2) as (wide & Hwide & Hlen).
  exists wide. split; [done |].
  rewrite Hlen, <- (point_ids_length _ Hids).
  apply Permutation_length, NoDup_Permutation;
    [apply NoDup_remove_dups | done |].
  intros p. apply elem_of_remove_dups.
Qed.

End exportTimeSeries_more.

Lemma sample_images_in_range :
  Forall (λ image, has_band "NDVI" image ∧ image_id image ≠ "id")
         (ee.filterDate (Qc_of_Z 0) (Qc_of_Z 10) sample_images).
Proof.
  apply list.Forall_forall. intros image [_ Hin]%list_elem_of_filter.
  unfold sample_images in Hin. rewrite !elem_of_cons, elem_of_nil in Hin.
  destruct Hin as [-> | [-> | [-> | []]]]; by split.
Defined.

Lemma exportTimeSeries_cells_witness :
  ∃ wide,
    exportTimeSeries (λ _, false) exact_product sample_images sample_points (Qc_of_Z 0)
      (Qc_of_Z 10) "NDVI" "ndvi" (Qc_of_Z 250) (Q2Qc (1 # 4))
      "earthengine" "modis_ndvi_series"
    = [ PrintFirst (Some (head wide));
        ExportTable (mkExportTask (Some wide) "modis_ndvi_series" "earthengine"
                       "modis_ndvi_series" "CSV") ]
    ∧ ∀ f image r,
        f ∈ sample_points →
        image ∈ ee.filterDate (Qc_of_Z 0) (Qc_of_Z 10) sample_images →
        ("NDVI", r) ∈ image_bands image →
        ∃ row, row ∈ wide
          ∧ ee.get row "id" = ee.get f "id"
          ∧ geometry row = geometry f
          ∧ ee.get row (image_id image)
            = Some (VStr (ee.format_2f
                            (default sentinel
                               ((λ v, exact_product v (Q2Qc (1 # 4)))
                                  <$> r (Qc_of_Z 250) (geometry f))))).
Proof.
  apply exportTimeSeries_cells.
  - repeat constructor; by eexists.
  - apply (bool_decide_unpack _). by vm_compute.
  - apply (bool_decide_unpack _). by vm_compute.
  - exact sample_images_in_range.
  - done.
  - done.
Defined.

Lemma exportTimeSeries_alias_imageId_witness :
  exported_tables
    (exportTimeSeries (λ _, false) exact_product sample_images sample_points (Qc_of_Z 0)
       (Qc_of_Z 10) "NDVI" "imageId" (Qc_of_Z 250) (Q2Qc (1 # 4))
       "earthengine" "modis_ndvi_series")
  = [None].
Proof.
  apply (exportTimeSeries_alias_imageId (λ _, false) exact_product sample_images sample_points
           (Qc_of_Z 0) (Qc_of_Z 10) "NDVI" (Qc_of_Z 250) (Q2Qc (1 # 4))
           "earthengine" "modis_ndvi_series"
           (flat_image "i1" 5 7) (sample_point 1 7)).
  - apply list_elem_of_filter. split; [by vm_compute | left].
  - left.
  - by eexists.
Defined.

Lemma exportTimeSeries_empty_witness :
  exportTimeSeries (λ _, false) exact_product sample_images sample_points (Qc_of_Z 100)
    (Qc_of_Z 200) "NDVI" "ndvi" (Qc_of_Z 250) (Q2Qc (1 # 4))
    "earthengine" "modis_ndvi_series"
  = [ PrintFirst (Some None);
      ExportTable (mkExportTask (Some []) "modis_ndvi_series" "earthengine"
                     "modis_ndvi_series" "CSV") ].
Proof. apply exportTimeSeries_empty. left. by vm_compute. Defined.

Lemma exportTimeSeries_row_count_witness :
  ∃ wide,
    exported_tables
      (exportTimeSeries (λ _, false) exact_product sample_images sample_points (Qc_of_Z 0)
         (Qc_of_Z 10) "NDVI" "ndvi" (Qc_of_Z 250) (Q2Qc (1 # 4))
         "earthengine" "modis_ndvi_series")
    = [Some wide]
    ∧ length wide = length sample_points.
Proof.
  apply exportTimeSeries_row_count.
  - repeat constructor; by eexists.
  - apply (bool_decide_unpack _). by vm_compute.
  - eapply list.Forall_impl; [exact sample_images_in_range |]. by intros ? [? _].
  - by vm_compute.
  - done.
  - done.
Defined.

(** ** More on the chunking helper *)

Lemma mjoin_fmap_nil {A B} (g : A → list B) (l : list A) :
  (∀ x, x ∈ l → g x = []) → mjoin (g <$> l) = [].
Proof.
  induction l as [|x l IH]; intros Hg; [done |].
  rewrite fmap_cons. simpl. rewrite (Hg x) by left. simpl.
  apply IH. intros y Hy. apply Hg. by right.
Qed.

Lemma divide_ceil_two (n : nat) : (n ≤ 2 * ee.divide_ceil n 2)%nat.
Proof.
  unfold ee.divide_ceil.
  pose proof (Nat.div_mod_eq (n + (2 - 1)) 2).
  pose proof (Nat.mod_upper_bound (n + (2 - 1)) 2). lia.
Qed.

(** X11: with one or two chunks, and with more whenever the collection
    has at most two chunk sizes of features, the chunks are the
    collection cut in consecutive pieces: joined in order they give it
    back, no feature twice and none lost. *)
Theorem chunks_partition (collection : list Feature) (numChunks : nat) :
  (1 ≤ numChunks)%nat →
  (numChunks ≤ 2)%nat
  ∨ (length collection
     ≤ 2 * ee.divide_ceil (length collection) numChunks)%nat →
  mjoin (chunks collection numChunks) = collection.
Proof.
  intros Hk Hsmall. unfold chunks.
  set (cs := ee.divide_ceil (length collection) numChunks).
  destruct numChunks as [|[|k]]; [lia | |].
  - (* one chunk *)
    assert (Hcs : cs = length collection).
    { unfold cs, ee.divide_ceil.
      change (1 - 1)%nat with 0%nat. by rewrite Nat.add_0_r, Nat.div_1_r. }
    simpl. unfold getSubset, ee.toList. simpl. rewrite app_nil_r.
    apply take_ge. lia.
  - assert (Hlen : (length collection ≤ 2 * cs)%nat).
    { destruct Hsmall as [Hk2 | Hlen]; [| done].
      assert (k = 0%nat) as -> by lia. apply divide_ceil_two. }
    clearbody cs.
    change (seq 0 (S (S k))) with (0 :: 1 :: seq 2 k)%nat.
    change (map ?f ?l) with (f <$> l). rewrite !fmap_cons.
    change (mjoin (?a :: ?b :: ?l)) with (a ++ b ++ mjoin l).
    rewrite mjoin_fmap_nil.
    + unfold getSubset, ee.toList. simpl. rewrite app_nil_r, !Nat.add_0_r.
      rewrite (take_ge (drop cs collection)) by (rewrite length_drop; lia).
      apply take_drop.
    + intros i [Hi _]%elem_of_seq. unfold getSubset, ee.toList.
      rewrite drop_ge by nia. apply take_nil.
Qed.

Lemma chunks_partition_witness : mjoin (chunks sample_points 2) = sample_points.
Proof. apply chunks_partition; [lia | left; lia]. Defined.

Lemma chunks_share_witness :
  ∃ c1 c2, chunks sample_points 3 !! 1%nat = Some c1
           ∧ chunks sample_points 3 !! 2%nat = Some c2
           ∧ sample_point 3 9 ∈ c1 ∧ sample_point 3 9 ∈ c2.
Proof. apply chunks_share; [lia | reflexivity]. Defined.

Lemma chunks_cover_witness :
  ∃ c, c ∈ chunks sample_points 3 ∧ sample_point 1 7 ∈ c.
Proof. apply chunks_cover; [lia | left]. Defined.

Lemma divide_ceil_five (n : nat) :
  (3 ≤ n)%nat → (1 ≤ ee.divide_ceil n 5 ∧ 2 * ee.divide_ceil n 5 < n)%nat.
Proof.
  intros Hn. unfold ee.divide_ceil.
  pose proof (Nat.div_mod_eq (n + (5 - 1)) 5).
  pose proof (Nat.mod_upper_bound (n + (5 - 1)) 5). lia.
Qed.

(** X14: whatever the two assets hold, the chunked script starts five
    export tasks, named [chunk1_surface_pressure] to
    [chunk5_surface_pressure]; and as soon as the points asset has three
    features, one of them is in the request of the second task and again
    in that of the third. *)
Theorem script_chunked_tasks (retained : string → bool)
    (product : Qc → Qc → Qc) (era5 : list Image) (points : list Feature) :
  omap export_prefix (script_chunked retained product era5 points)
  = [ "chunk1_surface_pressure"; "chunk2_surface_pressure";
      "chunk3_surface_pressure"; "chunk4_surface_pressure";
      "chunk5_surface_pressure" ]
  ∧ ((3 ≤ length points)%nat →
     ∃ x c2 c3,
       (call_featureCollection <$> script_chunked_calls era5 points) !! 1%nat
       = Some c2
       ∧ (call_featureCollection <$> script_chunked_calls era5 points) !! 2%nat
         = Some c3
       ∧ x ∈ c2 ∧ x ∈ c3).
Proof.
  split; [reflexivity |]. intros Hn.
  set (cs := ee.divide_ceil (length points) 5).
  pose proof (divide_ceil_five (length points) Hn) as [Hpos Hcs].
  fold cs in Hpos, Hcs.
  destruct (lookup_lt_is_Some_2 points (2 * cs)%nat Hcs) as [x Hx].
  exists x, (take (cs + 0 + cs) (drop (cs + 0) points)),
    (take (cs + (cs + 0) + cs) (drop (cs + (cs + 0)) points)).
  split; [reflexivity |]. split; [reflexivity |]. split.
  - apply (list_elem_of_lookup_2 _ cs). rewrite lookup_take_lt by lia.
    rewrite lookup_drop, <- Hx. f_equal. lia.
  - apply (list_elem_of_lookup_2 _ 0%nat). rewrite lookup_take_lt by lia.
    rewrite lookup_drop, <- Hx. f_equal. lia.
Qed.

Lemma script_chunked_tasks_witness :
  omap export_prefix
    (script_chunked (λ _, false) exact_product sample_images sample_points)
  = [ "chunk1_surface_pressure"; "chunk2_surface_pressure";
      "chunk3_surface_pressure"; "chunk4_surface_pressure";
      "chunk5_surface_pressure" ]
  ∧ ∃ x c2 c3,
      (call_featureCollection
         <$> script_chunked_calls sample_images sample_points) !! 1%nat
      = Some c2
      ∧ (call_featureCollection
           <$> script_chunked_calls sample_images sample_points) !! 2%nat
        = Some c3
      ∧ x ∈ c2 ∧ x ∈ c3.
Proof.
  destruct (script_chunked_tasks (λ _, false) exact_product sample_images
              sample_points) as [Hprefixes Hshared].
  split; [exact Hprefixes |]. apply Hshared. simpl. lia.
Defined.
